(** * mugo transpiler: a shallow embedding of [transpiler/transpiler.go]

    The transpiler walks a [go/ast] tree and prints an Arduino C++ sketch.
    The development below follows the Go file function by function.  The
    parser ([go/parser]) is outside of the repository: the embedding starts
    from the parsed [ast.File].  The parts of [go/token] and [go/ast] the
    transpiler relies on (token spellings, node positions) are rendered in
    the modules [token] and [ast]. *)

From Stdlib Require Import ZArith List String Ascii Bool Lia DecimalString.
From Stdlib Require Import Sorted.
Import ListNotations.

Set Warnings "-register-all".

Local Open Scope Z_scope.
Local Open Scope string_scope.
Local Open Scope list_scope.

(** String concatenation, written [+++] so that [++] stays the list append. *)
Infix "+++" := String.append (right associativity, at level 60).

(* ------------------------------------------------------------------ *)
(** ** go/token *)

Module token.

(** [token.Pos] is an [int]; [NoPos] is 0. *)
Definition Pos := Z.
Definition NoPos : Pos := 0.
Definition IsValid (p : Pos) : bool := negb (Z.eqb p NoPos).

(** The literal kinds and the operators of [go/token]; keywords and
    delimiters never reach the transpiler as a [Token] value. *)
Inductive Token :=
| ILLEGAL | EOF | COMMENT
| IDENT | INT | FLOAT | IMAG | CHAR | STRING
| ADD | SUB | MUL | QUO | REM
| AND | OR | XOR | SHL | SHR | AND_NOT
| ADD_ASSIGN | SUB_ASSIGN | MUL_ASSIGN | QUO_ASSIGN | REM_ASSIGN
| AND_ASSIGN | OR_ASSIGN | XOR_ASSIGN | SHL_ASSIGN | SHR_ASSIGN
| AND_NOT_ASSIGN
| LAND | LOR | ARROW | INC | DEC
| EQL | LSS | GTR | ASSIGN | NOT
| NEQ | LEQ | GEQ | DEFINE.

Definition Token_eqb (a b : Token) : bool :=
  match a, b with
  | ILLEGAL, ILLEGAL | EOF, EOF | COMMENT, COMMENT | IDENT, IDENT
  | INT, INT | FLOAT, FLOAT | IMAG, IMAG | CHAR, CHAR | STRING, STRING
  | ADD, ADD | SUB, SUB | MUL, MUL | QUO, QUO | REM, REM
  | AND, AND | OR, OR | XOR, XOR | SHL, SHL | SHR, SHR
  | AND_NOT, AND_NOT
  | ADD_ASSIGN, ADD_ASSIGN | SUB_ASSIGN, SUB_ASSIGN
  | MUL_ASSIGN, MUL_ASSIGN | QUO_ASSIGN, QUO_ASSIGN
  | REM_ASSIGN, REM_ASSIGN | AND_ASSIGN, AND_ASSIGN
  | OR_ASSIGN, OR_ASSIGN | XOR_ASSIGN, XOR_ASSIGN
  | SHL_ASSIGN, SHL_ASSIGN | SHR_ASSIGN, SHR_ASSIGN
  | AND_NOT_ASSIGN, AND_NOT_ASSIGN
  | LAND, LAND | LOR, LOR | ARROW, ARROW | INC, INC | DEC, DEC
  | EQL, EQL | LSS, LSS | GTR, GTR | ASSIGN, ASSIGN | NOT, NOT
  | NEQ, NEQ | LEQ, LEQ | GEQ, GEQ | DEFINE, DEFINE => true
  | _, _ => false
  end.

(** [Token.String], what the verb [%s] prints for a token. *)
Definition String (t : Token) : string :=
  match t with
  | ILLEGAL => "ILLEGAL" | EOF => "EOF" | COMMENT => "COMMENT"
  | IDENT => "IDENT" | INT => "INT" | FLOAT => "FLOAT" | IMAG => "IMAG"
  | CHAR => "CHAR" | STRING => "STRING"
  | ADD => "+" | SUB => "-" | MUL => "*" | QUO => "/" | REM => "%"
  | AND => "&" | OR => "|" | XOR => "^" | SHL => "<<" | SHR => ">>"
  | AND_NOT => "&^"
  | ADD_ASSIGN => "+=" | SUB_ASSIGN => "-=" | MUL_ASSIGN => "*="
  | QUO_ASSIGN => "/=" | REM_ASSIGN => "%="
  | AND_ASSIGN => "&=" | OR_ASSIGN => "|=" | XOR_ASSIGN => "^="
  | SHL_ASSIGN => "<<=" | SHR_ASSIGN => ">>=" | AND_NOT_ASSIGN => "&^="
  | LAND => "&&" | LOR => "||" | ARROW => "<-" | INC => "++" | DEC => "--"
  | EQL => "==" | LSS => "<" | GTR => ">" | ASSIGN => "=" | NOT => "!"
  | NEQ => "!=" | LEQ => "<=" | GEQ => ">=" | DEFINE => ":="
  end.

End token.

(* ------------------------------------------------------------------ *)
(** ** go/ast *)

Module ast.

Import token.

(** Calling a method through a nil pointer, indexing past the end of a
    slice and a failed unchecked type assertion all abort the Go program. *)
Inductive panic :=
| NilDereference
| IndexOutOfRange
| TypeAssertion.

Inductive ObjKind := Bad | Pkg | Con | Typ | Var | Fun | Lbl.

Definition ObjKind_eqb (a b : ObjKind) : bool :=
  match a, b with
  | Bad, Bad | Pkg, Pkg | Con, Con | Typ, Typ
  | Var, Var | Fun, Fun | Lbl, Lbl => true
  | _, _ => false
  end.

Record Object := { Kind : ObjKind }.

(** [*ast.Ident]; [Obj] is a pointer and may be nil. *)
Record Ident := { NamePos : Pos; Name : string; Obj : option Object }.

(** [ast.Expr].  Only the fields the transpiler or [Pos] reads are kept:
    [ArrayType.Len], the parameter lists of a [FuncType] and the methods
    of an [InterfaceType] are never looked at.  [OtherExpr] stands for
    every expression node the type switches send to [default]. *)
Inductive Expr :=
| BasicLit (ValuePos : Pos) (Kind : Token) (Value : string)
| BinaryExpr (X : Expr) (OpPos : Pos) (Op : Token) (Y : Expr)
| CallExpr (Fun : Expr) (Lparen : Pos) (Args : list Expr)
| IdentExpr (id : Ident)
| SelectorExpr (X : Expr) (Sel : Ident)
| StarExpr (Star : Pos) (X : Expr)
| UnaryExpr (OpPos : Pos) (Op : Token) (X : Expr)
| ArrayType (Lbrack : Pos) (Elt : Expr)
| Ellipsis (EllipsisPos : Pos) (Elt : Expr)
| FuncType (FuncPos : Pos)
| InterfaceType (Interface : Pos)
| OtherExpr (pos : Pos).

(** [ast.Stmt]; [OtherStmt] stands for every statement node sent to
    [default].  [IfStmt.Init] is never read by the transpiler. *)
Inductive Stmt :=
| ExprStmt (X : Expr)
| AssignStmt (Lhs : list Expr) (TokPos : Pos) (Tok : Token) (Rhs : list Expr)
| IfStmt (If : Pos) (Cond : Expr) (Body : BlockStmt) (Else : option Stmt)
| ReturnStmt (Return : Pos) (Results : list Expr)
| BlockStmtS (b : BlockStmt)
| OtherStmt (pos : Pos)
with BlockStmt :=
| Block (Lbrace : Pos) (List : list Stmt).

Record Field := { FieldNames : list Ident; FieldType : Expr }.

Record FieldList := { Opening : Pos; FieldsList : list Field }.

(** The [*ast.FuncType] of a declaration. *)
Record FuncSig :=
  { Func : Pos; Params : FieldList; Results : option FieldList }.

Record FuncDecl :=
  { Recv : option FieldList;
    FuncName : Ident;
    Type_ : FuncSig;
    Body : option BlockStmt }.

Record ValueSpec :=
  { Names : list Ident; ValueType : option Expr; Values : list Expr }.

Record ImportSpec := { ImportName : option Ident; PathPos : Pos }.

(** [ast.Spec]; [OtherSpec] is a [*ast.TypeSpec]. *)
Inductive Spec :=
| ValueSpecS (vs : ValueSpec)
| ImportSpecS (i : ImportSpec)
| OtherSpec (pos : Pos).

Record GenDecl := { GenTokPos : Pos; Specs : list Spec }.

(** [ast.Decl]; [OtherDecl] is a [*ast.BadDecl]. *)
Inductive Decl :=
| GenDeclD (gd : GenDecl)
| FuncDeclD (fd : FuncDecl)
| OtherDecl (pos : Pos).

Record Comment := { Slash : Pos; Text : string }.

Record CommentGroup := { CommentList : list Comment }.

Record File :=
  { Imports : list ImportSpec;
    Decls : list Decl;
    Comments : list CommentGroup }.

(** The [ast.Node] interface.  The transpiler only ever calls [Pos], and
    [Pos] of a node that indexes an empty slice panics. *)
Class Node (A : Type) := Pos : A -> panic + token.Pos.

Definition Ident_Pos (x : Ident) : token.Pos := NamePos x.

Fixpoint Expr_Pos (e : Expr) : token.Pos :=
  match e with
  | BasicLit p _ _ => p
  | BinaryExpr x _ _ _ => Expr_Pos x
  | CallExpr f _ _ => Expr_Pos f
  | IdentExpr x => Ident_Pos x
  | SelectorExpr x _ => Expr_Pos x
  | StarExpr p _ => p
  | UnaryExpr p _ _ => p
  | ArrayType p _ => p
  | Ellipsis p _ => p
  | FuncType p => p
  | InterfaceType p => p
  | OtherExpr p => p
  end.

Definition BlockStmt_Pos (b : BlockStmt) : token.Pos :=
  match b with Block p _ => p end.

Definition Stmt_Pos (s : Stmt) : panic + token.Pos :=
  match s with
  | ExprStmt x => inr (Expr_Pos x)
  | AssignStmt lhs _ _ _ =>
      match lhs with
      | [] => inl IndexOutOfRange
      | x :: _ => inr (Expr_Pos x)
      end
  | IfStmt p _ _ _ => inr p
  | ReturnStmt p _ => inr p
  | BlockStmtS b => inr (BlockStmt_Pos b)
  | OtherStmt p => inr p
  end.

Definition Field_Pos (f : Field) : token.Pos :=
  match FieldNames f with
  | x :: _ => Ident_Pos x
  | [] => Expr_Pos (FieldType f)
  end.

Definition FieldList_Pos (f : FieldList) : token.Pos :=
  if IsValid (Opening f) then Opening f
  else match FieldsList f with
       | x :: _ => Field_Pos x
       | [] => NoPos
       end.

Definition FuncDecl_Pos (d : FuncDecl) : token.Pos := Func (Type_ d).

Definition ValueSpec_Pos (s : ValueSpec) : panic + token.Pos :=
  match Names s with
  | [] => inl IndexOutOfRange
  | x :: _ => inr (Ident_Pos x)
  end.

Definition ImportSpec_Pos (s : ImportSpec) : token.Pos :=
  match ImportName s with
  | Some x => Ident_Pos x
  | None => PathPos s
  end.

Definition Spec_Pos (s : Spec) : panic + token.Pos :=
  match s with
  | ValueSpecS vs => ValueSpec_Pos vs
  | ImportSpecS i => inr (ImportSpec_Pos i)
  | OtherSpec p => inr p
  end.

Definition Decl_Pos (d : Decl) : panic + token.Pos :=
  match d with
  | GenDeclD gd => inr (GenTokPos gd)
  | FuncDeclD fd => inr (FuncDecl_Pos fd)
  | OtherDecl p => inr p
  end.

Definition CommentGroup_Pos (g : CommentGroup) : panic + token.Pos :=
  match CommentList g with
  | [] => inl IndexOutOfRange
  | cm :: _ => inr (Slash cm)
  end.

#[global] Instance Ident_Node : Node Ident := fun x => inr (Ident_Pos x).
#[global] Instance Expr_Node : Node Expr := fun e => inr (Expr_Pos e).
#[global] Instance Stmt_Node : Node Stmt := Stmt_Pos.
#[global] Instance BlockStmt_Node : Node BlockStmt :=
  fun b => inr (BlockStmt_Pos b).
#[global] Instance Field_Node : Node Field := fun f => inr (Field_Pos f).
#[global] Instance FieldList_Node : Node FieldList :=
  fun f => inr (FieldList_Pos f).
#[global] Instance FuncDecl_Node : Node FuncDecl :=
  fun d => inr (FuncDecl_Pos d).
#[global] Instance ValueSpec_Node : Node ValueSpec := ValueSpec_Pos.
#[global] Instance ImportSpec_Node : Node ImportSpec :=
  fun s => inr (ImportSpec_Pos s).
#[global] Instance Spec_Node : Node Spec := Spec_Pos.
#[global] Instance Decl_Node : Node Decl := Decl_Pos.
#[global] Instance CommentGroup_Node : Node CommentGroup := CommentGroup_Pos.

End ast.

(* ------------------------------------------------------------------ *)
(** ** Strings and errors *)

(** The newline and the double quote, by their character codes. *)
Definition nl : string := String "010"%char EmptyString.
Definition dquote : string := String "034"%char EmptyString.

(** [strings.Join]. *)
Definition Join (elems : list string) (sep : string) : string :=
  String.concat sep elems.

(** The errors of the transpiler are built by [fmt.Errorf] (a message), by
    [output.Errorf] (a line number and a message) or come from the
    underlying [io.Writer].  The [%v] and [%# v] dumps of syntax nodes that
    the Go messages end with are not part of the model. *)
Inductive error :=
| errorString (msg : string)
| errorLine (line : Z) (msg : string)
| errorWrite.

(** [err.Error()], what the verb [%s] prints for an error. *)
Definition Error (e : error) : string :=
  match e with
  | errorString msg => msg
  | errorLine l msg =>
      "line " +++ NilZero.string_of_int (Z.to_int l) +++ ": " +++ msg
  | errorWrite => "write error"
  end.

(* ------------------------------------------------------------------ *)
(** ** io.Writer *)

(** What reaches the writer is kept as the sequence of [Fprintf] calls that
    succeeded.  A call made by the comment loop of [Writef] is recorded as a
    [CommentLine], every other call as a [TextChunk]; [render] gives the
    bytes. *)
Inductive chunk :=
| TextChunk (s : string)
| CommentLine (text : string).

(** [budget = None] is a writer that never fails, such as [bytes.Buffer];
    [budget = Some k] accepts [k] more calls and fails afterwards.  A failed
    call writes nothing. *)
Record Writer := { written : list chunk; budget : option nat }.

Definition Buffer : Writer := {| written := []; budget := None |}.

Definition render_chunk (k : chunk) : string :=
  match k with
  | TextChunk s => s
  | CommentLine t => t +++ nl
  end.

Definition render (l : list chunk) : string :=
  fold_right (fun k acc => render_chunk k +++ acc) "" l.

Definition Fprintf (w : Writer) (k : chunk) : Writer * option error :=
  match budget w with
  | None => ({| written := written w ++ [k]; budget := None |}, None)
  | Some (S n) => ({| written := written w ++ [k]; budget := Some n |}, None)
  | Some O => (w, Some errorWrite)
  end.

(* ------------------------------------------------------------------ *)
(** ** The output sink and the monad of the handlers *)

Record output :=
  { out : Writer;
    content : string;
    lines : list Z;
    lastNode : option ast.Expr;
    c : list ast.CommentGroup;
    err : option error }.

(** A handler receives the sink by pointer, updates it in place and returns
    a value, or the program panics. *)
Inductive result (A : Type) :=
| Ret (a : A) (o : output)
| Panic (p : ast.panic).

Arguments Ret {A} a o.
Arguments Panic {A} p.

Definition M (A : Type) : Type := output -> result A.

Definition ret {A} (a : A) : M A := fun o => Ret a o.

Definition bind {A B} (m : M A) (k : A -> M B) : M B :=
  fun o => match m o with
           | Ret a o' => k a o'
           | Panic p => Panic p
           end.

Definition throw {A} (p : ast.panic) : M A := fun _ => Panic p.

(** [if err := m; err != nil { return err }; k] *)
Definition returnIfErr (m : M (option error)) (k : M (option error))
  : M (option error) :=
  bind m (fun e => match e with
                   | Some e' => ret (Some e')
                   | None => k
                   end).

Declare Scope go_scope.
Delimit Scope go_scope with go.
Notation "x <- m ;; k" := (bind m (fun x => k))
  (at level 61, m at next level, right associativity) : go_scope.
Notation "m ;; k" := (bind m (fun _ => k))
  (at level 61, right associativity) : go_scope.
Notation "'check' m ;; k" := (returnIfErr m k)
  (at level 61, m at next level, right associativity) : go_scope.
Local Open Scope go_scope.

(** The writes of one comment group: [for _, c := range o.c[0].List]. *)
Fixpoint writeComments (l : list ast.Comment) (w : Writer)
  : Writer * option error :=
  match l with
  | [] => (w, None)
  | cm :: r =>
      match Fprintf w (CommentLine (ast.Text cm)) with
      | (w', Some e) => (w', Some e)
      | (w', None) => writeComments r w'
      end
  end.

(** The comment loop of [Writef]:
    [for len(o.c) != 0 && n.Pos() > o.c[0].Pos() { ...; o.c = o.c[1:] }].
    It returns the writer, the comment groups left and the write error. *)
Fixpoint flushComments {A} `{ast.Node A} (n : A) (cs : list ast.CommentGroup)
  (w : Writer) : ast.panic + (Writer * list ast.CommentGroup * option error) :=
  match cs with
  | [] => inr (w, [], None)
  | g :: rest =>
      match ast.Pos n with
      | inl p => inl p
      | inr np =>
          match ast.Pos g with
          | inl p => inl p
          | inr gp =>
              if np >? gp then
                match writeComments (ast.CommentList g) w with
                | (w', Some e) => inr (w', g :: rest, Some e)
                | (w', None) => flushComments n rest w'
                end
              else inr (w, g :: rest, None)
          end
      end
  end.

(** [Writef]; the argument [s] is the text [format] and [a...] expand to. *)
Definition Writef {A} `{ast.Node A} (n : A) (s : string) : M unit :=
  fun o =>
    match err o with
    | Some _ => Ret tt o
    | None =>
        match flushComments n (c o) (out o) with
        | inl p => Panic p
        | inr (w, cs, Some e) =>
            Ret tt {| out := w; content := content o; lines := lines o;
                      lastNode := lastNode o; c := cs; err := Some e |}
        | inr (w, cs, None) =>
            let (w', e) := Fprintf w (TextChunk s) in
            Ret tt {| out := w'; content := content o; lines := lines o;
                      lastNode := lastNode o; c := cs; err := e |}
        end
    end.

Fixpoint findLine_from (ls : list Z) (p : Z) (l : Z) : Z :=
  match ls with
  | [] => l
  | x :: r => if p >=? x then findLine_from r p (l + 1) else l
  end.

Definition findLine (o : output) (p : Z) : Z :=
  findLine_from (lines o) p 0 + 1.

(** [Errorf] returns an error with the line of the node. *)
Definition Errorf {A} `{ast.Node A} (n : A) (msg : string)
  : M (option error) :=
  fun o =>
    match ast.Pos n with
    | inl p => Panic p
    | inr p => Ret (Some (errorLine (findLine o p) msg)) o
    end.

(* ------------------------------------------------------------------ *)
(** ** File level constants and variables *)

Definition guessType (vs : ast.ValueSpec)
  : ast.panic + (token.Token * string * option error) :=
  match ast.Values vs with
  | _ :: _ :: _ =>
      inr (token.ILLEGAL, "", Some (errorString "unsupported # of values"))
  | [] =>
      (* The type assertion of vs.Type to an identifier is unchecked. *)
      match ast.ValueType vs with
      | Some (ast.IdentExpr id) =>
          let n := ast.Name id in
          if String.eqb n "int" then inr (token.INT, "0", None)
          else if String.eqb n "string" then
            inr (token.STRING, dquote +++ dquote, None)
          else
            inr (token.ILLEGAL, "",
                 Some (errorString ("unsupported type: " +++ n)))
      | _ => inl ast.TypeAssertion
      end
  | [v] =>
      match v with
      | ast.BasicLit _ kind value => inr (kind, value, None)
      | _ => inr (token.ILLEGAL, "", Some (errorString "unsupported value"))
      end
  end.

Definition isValueConst (vs : ast.ValueSpec) : ast.panic + bool :=
  match ast.Names vs with
  | [] => inl ast.IndexOutOfRange
  | x :: _ =>
      match ast.Obj x with
      | None => inl ast.NilDereference
      | Some ob => inr (ast.ObjKind_eqb (ast.Kind ob) ast.Con)
      end
  end.

(** [tokenStr] returns the closest 'C' type for a [token.Token]. *)
Definition tokenStr (kind : token.Token) (isConst : bool) : string :=
  match kind with
  | token.INT => if isConst then "const int" else "int"
  | token.STRING => if isConst then "const char * const" else "const char *"
  | _ => ""
  end.

(** The line [handleValueSpec] prints for one name:
    [strings.Join(append(decl, typ, name.Name, "=", lit), " ")] under the
    format ["%s;\n"], where [decl] is the nil slice. *)
Definition declLine (typ : string) (name : ast.Ident) (lit : string) : string :=
  Join [typ; ast.Name name; "="; lit] " " +++ ";" +++ nl.

Fixpoint writeDecls (vs : ast.ValueSpec) (typ lit : string)
  (names : list ast.Ident) : M unit :=
  match names with
  | [] => ret tt
  | name :: r => Writef vs (declLine typ name lit) ;; writeDecls vs typ lit r
  end.

(** [handleValueSpec] handles a file level constant or variable. *)
Definition handleValueSpec (vs : ast.ValueSpec) : M (option error) :=
  if (List.length (ast.Names vs) =? 0)%nat then
    Errorf vs "unsupported # of value names"
  else
    match guessType vs with
    | inl p => throw p
    | inr (_, _, Some e) => Errorf vs (Error e)
    | inr (kind, lit, None) =>
        match isValueConst vs with
        | inl p => throw p
        | inr isConst =>
            let typ := tokenStr kind isConst in
            if (String.length typ =? 0)%nat then
              Errorf vs ("unsupported literal kind: " +++ token.String kind)
            else
              writeDecls vs typ lit (ast.Names vs) ;; ret None
        end
    end.

(** [handleGenDecl] handles a file level declaration; a constant, a
    variable or an import statement. *)
Fixpoint handleSpecs (specs : list ast.Spec) : M (option error) :=
  match specs with
  | [] => ret None
  | s :: r =>
      match s with
      | ast.ValueSpecS spec =>
          check handleValueSpec spec ;; handleSpecs r
      | ast.ImportSpecS _ =>
          Writef s "" ;; handleSpecs r
      | ast.OtherSpec _ => Errorf s "unsupported spec"
      end
  end.

Definition handleGenDecl (gd : ast.GenDecl) : M (option error) :=
  handleSpecs (ast.Specs gd).

(* ------------------------------------------------------------------ *)
(** ** Types *)

(** The [*ast.Ident] case of [exprTypeToType]; it also serves the call on
    [arg.Sel], which is an identifier. *)
Definition identToType (id : ast.Ident) : M (string * bool * option error) :=
  ret (ast.Name id, false, None).

(** [exprTypeToType] returns a "C" representation of the node, and [true]
    on the second component if the type includes the ellipsis. *)
Fixpoint exprTypeToType (n : ast.Expr) : M (string * bool * option error) :=
  match n with
  | ast.ArrayType _ elt =>
      r <- exprTypeToType elt ;;
      match r with
      | (_, _, Some e) => ret ("", false, Some e)
      | (name, extra, None) => ret ("*" +++ name, extra, None)
      end
  | ast.Ellipsis _ elt =>
      r <- exprTypeToType elt ;;
      match r with
      | (name, _, e) => ret (name, true, e)
      end
  | ast.FuncType _ =>
      e <- Errorf n "function pointers are not supported" ;;
      ret ("", false, e)
  | ast.IdentExpr id => identToType id
  | ast.InterfaceType _ => ret ("void *", false, None)
  | ast.SelectorExpr x sel =>
      r <- exprTypeToType x ;;
      match r with
      | (_, _, Some e) => ret ("", false, Some e)
      | (x', _, None) =>
          r' <- identToType sel ;;
          match r' with
          | (_, _, Some e) => ret ("", false, Some e)
          | (s, _, None) => ret (x' +++ "." +++ s, false, None)
          end
      end
  | ast.StarExpr _ x =>
      r <- exprTypeToType x ;;
      match r with
      | (_, extra, Some e) => ret ("", extra, Some e)
      | (x', extra, None) => ret ("*" +++ x', extra, None)
      end
  | _ =>
      e <- Errorf n "unexpected param type" ;;
      ret ("", false, e)
  end.

(** The loop of [extractArgumentsType] over the receiver and parameters. *)
Fixpoint argumentTypes (fields : list ast.Field) (types : list string)
  : M (list string * option error) :=
  match fields with
  | [] => ret (types, None)
  | arg :: r =>
      t <- exprTypeToType (ast.FieldType arg) ;;
      match t with
      | (_, _, Some e) => ret ([], Some e)
      | (t, extra, None) =>
          if (extra : bool) then
            e <- Errorf arg "unsupported param type" ;; ret ([], e)
          else
            let mult := List.length (ast.FieldNames arg) in
            let mult := if (mult =? 0)%nat then 1%nat else mult in
            argumentTypes r (types ++ repeat t mult)
      end
  end.

(** [extractArgumentsType] returns the name of the type of each input
    argument. *)
Definition extractArgumentsType (f : ast.FuncDecl)
  : M (list string * option error) :=
  let params := ast.FieldsList (ast.Params (ast.Type_ f)) in
  match ast.Recv f with
  | None => argumentTypes params []
  | Some recv =>
      match ast.FieldsList recv with
      | [r0] =>
          match ast.FieldType r0 with
          | ast.StarExpr _ _ => argumentTypes (r0 :: params) []
          | _ => argumentTypes params []
          end
      | _ =>
          e <- Errorf recv "expect only one receiver; please fix code" ;;
          ret ([], e)
      end
  end.

(* ------------------------------------------------------------------ *)
(** ** Expressions *)

(** [typeFromExpr] extracts the type from a constant. *)
Definition typeFromExpr (e : ast.Expr) : string :=
  match e with
  | ast.BasicLit _ kind _ => tokenStr kind false
  | ast.IdentExpr id => ast.Name id
  | _ => ""
  end.

(** [buf.Reset()] on the buffer of the temporary sink, and [buf.String()]. *)
Definition Reset (tmp : output) : output :=
  {| out := Buffer; content := content tmp; lines := lines tmp;
     lastNode := lastNode tmp; c := c tmp; err := err tmp |}.

Definition String_ (tmp : output) : string := render (written (out tmp)).

Definition setLastNode (a : ast.Expr) : M unit :=
  fun o => Ret tt {| out := out o; content := content o; lines := lines o;
                     lastNode := Some a; c := c o; err := err o |}.

(** The argument loop of [handleCallExpr].  Each argument is printed into
    the buffer of the temporary sink [tmp], which holds no comments. *)
Fixpoint callArgs (handleExpr : ast.Expr -> M (option error))
  (l : list ast.Expr) (tmp : output) (args : list string)
  : M (list string * option error) :=
  match l with
  | [] => ret (args, None)
  | a :: r =>
      match handleExpr a (Reset tmp) with
      | Panic p => throw p
      | Ret (Some e) _ => ret (args, Some e)
      | Ret None tmp' =>
          setLastNode a ;;
          callArgs handleExpr r tmp' (args ++ [String_ tmp'])
      end
  end.

(** [handleCallExpr] handles a function call. *)
Definition handleCallExpr (handleExpr : ast.Expr -> M (option error))
  (call fn : ast.Expr) (cargs : list ast.Expr) : M (option error) :=
  fun o =>
    let tmp := {| out := Buffer; content := content o; lines := lines o;
                  lastNode := Some call; c := []; err := None |} in
    (r <- callArgs handleExpr cargs tmp [] ;;
     match r with
     | (_, Some e) => ret (Some e)
     | (args, None) =>
         t <- exprTypeToType fn ;;
         match t with
         | (_, _, Some e) => ret (Some e)
         | (ident, _, None) =>
             Writef call (ident +++ "(" +++ Join args ", " +++ ")") ;;
             ret None
         end
     end) o.

(** [handleBinaryExpr] handles an expression for the form "X <op> Y". *)
Definition handleBinaryExpr (handleExpr : ast.Expr -> M (option error))
  (be x : ast.Expr) (op : token.Token) (y : ast.Expr) : M (option error) :=
  check handleExpr x ;;
  Writef be (token.String op) ;;
  check handleExpr y ;;
  ret None.

(** The [*ast.Ident] case of [handleExpr]; it also serves the call on
    [expr.Sel], which is an identifier. *)
Definition handleIdent (id : ast.Ident) : M (option error) :=
  Writef id (ast.Name id) ;; ret None.

(** [handleExpr] handles a generic expression. *)
Fixpoint handleExpr (e : ast.Expr) : M (option error) :=
  match e with
  | ast.BasicLit _ _ value => Writef e value ;; ret None
  | ast.BinaryExpr x _ op y => handleBinaryExpr handleExpr e x op y
  | ast.CallExpr fn _ args => handleCallExpr handleExpr e fn args
  | ast.IdentExpr id => handleIdent id
  | ast.SelectorExpr x sel =>
      check handleExpr x ;;
      Writef e "." ;;
      handleIdent sel
  | ast.StarExpr _ x => Writef e "*" ;; handleExpr x
  | ast.UnaryExpr _ op x => Writef e (token.String op) ;; handleExpr x
  | _ => Errorf e "unsupported expr"
  end.

(* ------------------------------------------------------------------ *)
(** ** Statements *)

(** [for i, lhs := range st.Lhs] of the assignment case. *)
Fixpoint handleLhs (st : ast.Stmt) (tok : token.Token) (rhs : list ast.Expr)
  (i : nat) (l : list ast.Expr) : M (option error) :=
  match l with
  | [] => ret None
  | lhs :: r =>
      (if negb (i =? 0)%nat then Writef lhs ", "
       else if token.Token_eqb tok token.DEFINE then
         (* Need to add type before. *)
         match nth_error rhs i with
         | None => throw ast.IndexOutOfRange
         | Some v => Writef st (typeFromExpr v +++ " ")
         end
       else ret tt) ;;
      check handleExpr lhs ;;
      handleLhs st tok rhs (S i) r
  end.

(** [for i, rhs := range st.Rhs] and [for i, r := range st.Results]. *)
Fixpoint handleExprs (i : nat) (l : list ast.Expr) : M (option error) :=
  match l with
  | [] => ret None
  | x :: r =>
      (if negb (i =? 0)%nat then Writef x ", " else ret tt) ;;
      check handleExpr x ;;
      handleExprs (S i) r
  end.

(** [handleStmt] handles a single statement inside a block, and
    [handleBlockStmt] a series of statements in a block. *)
Fixpoint handleStmt (s : ast.Stmt) : M (option error) :=
  Writef s "  " ;;
  match s with
  | ast.ExprStmt x =>
      check handleExpr x ;;
      Writef s (";" +++ nl) ;;
      ret None
  | ast.AssignStmt lhs _ tok rhs =>
      if negb (token.Token_eqb tok token.DEFINE)
         && negb (token.Token_eqb tok token.ASSIGN)
      then Errorf s ("unexpected assignment: " +++ token.String tok)
      else
        check handleLhs s tok rhs 0 lhs ;;
        Writef s " = " ;;
        check handleExprs 0 rhs ;;
        Writef s (";" +++ nl) ;;
        ret None
  | ast.IfStmt _ cond body els =>
      Writef s "if (" ;;
      check handleExpr cond ;;
      Writef s (") {" +++ nl) ;;
      check handleBlockStmt body ;;
      Writef s "}" ;;
      check match els with
            | None => ret None
            | Some (ast.BlockStmtS bs) =>
                Writef s (" else {" +++ nl) ;;
                check handleBlockStmt bs ;;
                Writef s "}" ;;
                ret None
            | Some other => Errorf other "unsupported else statement"
            end ;;
      Writef s nl ;;
      ret None
  | ast.ReturnStmt _ results =>
      Writef s "return " ;;
      check handleExprs 0 results ;;
      Writef s (";" +++ nl) ;;
      ret None
  | _ => Errorf s "unsupported statement"
  end
with handleBlockStmt (bs : ast.BlockStmt) : M (option error) :=
  match bs with
  | ast.Block _ l =>
      (fix loop (l : list ast.Stmt) : M (option error) :=
         match l with
         | [] => ret None
         | s :: r => check handleStmt s ;; loop r
         end) l
  end.

(* ------------------------------------------------------------------ *)
(** ** Declarations *)

Definition handleFuncDecl (fd : ast.FuncDecl) : M (option error) :=
  r <- match ast.Results (ast.Type_ fd) with
       | None => ret ("void", None)
       | Some results =>
           match ast.FieldsList results with
           | [f] =>
               t <- exprTypeToType (ast.FieldType f) ;;
               match t with
               | (s, _, e) => ret (s, e)
               end
           | _ =>
               e <- Errorf fd "unsupported return type" ;; ret ("void", e)
           end
       end ;;
  match r with
  | (_, Some e) => ret (Some e)
  | (ret_, None) =>
      p <- extractArgumentsType fd ;;
      match p with
      | (_, Some e) => ret (Some e)
      | (params, None) =>
          Writef fd (ret_ +++ " " +++ ast.Name (ast.FuncName fd) +++ "("
                     +++ Join params " " +++ ") {" +++ nl) ;;
          match ast.Body fd with
          | None => throw ast.NilDereference
          | Some body =>
              check handleBlockStmt body ;;
              Writef body ("}" +++ nl) ;;
              ret None
          end
      end
  end.

(** [handleDecl] handles a declaration. *)
Definition handleDecl (d : ast.Decl) : M (option error) :=
  match d with
  | ast.GenDeclD decl => handleGenDecl decl
  | ast.FuncDeclD decl => handleFuncDecl decl
  | ast.OtherDecl _ => Errorf d "unsupported decl"
  end.

(** The offsets of the newlines of the input. *)
Fixpoint newlines (i : Z) (s : string) : list Z :=
  match s with
  | EmptyString => []
  | String ch r =>
      if Ascii.eqb ch "010"%char then i :: newlines (i + 1) r
      else newlines (i + 1) r
  end.

Fixpoint writeImports (l : list ast.ImportSpec) : M unit :=
  match l with
  | [] => ret tt
  | i :: r => Writef i "" ;; writeImports r
  end.

Fixpoint handleDecls (l : list ast.Decl) : M (option error) :=
  match l with
  | [] => fun o => Ret (err o) o
  | d :: r =>
      check handleDecl d ;;
      fun o => match err o with
               | Some e => Ret (Some e) o
               | None => handleDecls r o
               end
  end.

(** [Transpile] converts a Go source file to C++.  The parser is external:
    [src] is the input read from [in] and [f] the file parsed from it. *)
Definition Transpile (w : Writer) (src : string) (f : ast.File)
  : result (option error) :=
  let o := {| out := w; content := src; lines := newlines 0 src;
              lastNode := None; c := ast.Comments f; err := None |} in
  (writeImports (ast.Imports f) ;; handleDecls (ast.Decls f)) o.

(* ------------------------------------------------------------------ *)
(** ** Vocabulary of the statements *)

(** The comment lines of a list of groups, in list order, as they reach
    the writer. *)
Definition commentTexts (gs : list ast.CommentGroup) : list string :=
  flat_map (fun g => map ast.Text (ast.CommentList g)) gs.

Definition commentChunks (gs : list ast.CommentGroup) : list chunk :=
  map CommentLine (commentTexts gs).

(** The comment lines among the chunks a writer received. *)
Fixpoint commentsOf (l : list chunk) : list string :=
  match l with
  | [] => []
  | CommentLine t :: r => t :: commentsOf r
  | TextChunk _ :: r => commentsOf r
  end.

(** The parser never builds an empty comment group, and lists the groups
    of a file in source order. *)
Definition groupPos (g : ast.CommentGroup) : token.Pos :=
  match ast.CommentList g with
  | [] => token.NoPos
  | cm :: _ => ast.Slash cm
  end.

Definition nonEmptyGroups (cs : list ast.CommentGroup) : Prop :=
  Forall (fun g => ast.CommentList g <> []) cs.

Fixpoint sourceOrder (cs : list ast.CommentGroup) : Prop :=
  match cs with
  | [] => True
  | g :: r => Forall (fun g' => groupPos g <= groupPos g') r /\ sourceOrder r
  end.

(** [startsBefore np g]: the group [g] starts before the position [np]. *)
Definition startsBefore (np : token.Pos) (g : ast.CommentGroup) : bool :=
  Z.ltb (groupPos g) np.

(** A sink with no error recorded, no comment left to flush and a writer
    that does not fail: every [Writef] appends its text and nothing else. *)
Definition plain (o : output) : Prop :=
  err o = None /\ c o = [] /\ budget (out o) = None.

(** The sink [o] after the writer received [l]. *)
Definition emit (o : output) (l : list chunk) : output :=
  {| out := {| written := written (out o) ++ l; budget := budget (out o) |};
     content := content o; lines := lines o; lastNode := lastNode o;
     c := c o; err := err o |}.

(** The chunks printed for a list of already rendered expressions, with
    the separator the loops of [handleStmt] put before every item but the
    first. *)
Fixpoint separated (i : nat) (l : list (list chunk)) : list chunk :=
  match l with
  | [] => []
  | x :: r =>
      (if negb (i =? 0)%nat then [TextChunk ", "] else []) ++ x
      ++ separated (S i) r
  end.

(** The sink [o] with another last node; [handleCallExpr] records the
    arguments it went through there. *)
Definition withLastNode (ln : option ast.Expr) (o : output) : output :=
  {| out := out o; content := content o; lines := lines o;
     lastNode := ln; c := c o; err := err o |}.

(** [emits o l o']: the sink [o'] is [o] after the writer received [l],
    whatever its last node. *)
Definition emits (o : output) (l : list chunk) (o' : output) : Prop :=
  exists ln, o' = withLastNode ln (emit o l).

(** A handler that, on every plain sink, returns no error and writes [l];
    and a handler that, on every plain sink, returns an error. *)
Definition prints (m : M (option error)) (l : list chunk) : Prop :=
  forall o, plain o -> exists o', m o = Ret None o' /\ emits o l o'.

Definition fails (m : M (option error)) : Prop :=
  forall o, plain o -> exists e o', m o = Ret (Some e) o'.

(** The spelling [exprTypeToType] gives to a type expression, when it
    gives one. *)
Fixpoint typeName (n : ast.Expr) : option string :=
  match n with
  | ast.ArrayType _ elt => option_map (String.append "*") (typeName elt)
  | ast.Ellipsis _ elt => typeName elt
  | ast.IdentExpr id => Some (ast.Name id)
  | ast.InterfaceType _ => Some "void *"
  | ast.SelectorExpr x sel =>
      option_map (fun x' => x' +++ "." +++ ast.Name sel) (typeName x)
  | ast.StarExpr _ x => option_map (String.append "*") (typeName x)
  | _ => None
  end.

Fixpoint allSome {A} (l : list (option A)) : option (list A) :=
  match l with
  | [] => Some []
  | Some x :: r =>
      match allSome r with
      | Some xs => Some (x :: xs)
      | None => None
      end
  | None :: _ => None
  end.

(** The chunks [handleExpr] prints for an expression of the subset, and
    [None] for an expression outside of it.  A call is printed at once,
    with the text of its arguments. *)
Fixpoint exprChunks (e : ast.Expr) : option (list chunk) :=
  match e with
  | ast.BasicLit _ _ value => Some [TextChunk value]
  | ast.BinaryExpr x _ op y =>
      match exprChunks x, exprChunks y with
      | Some a, Some b => Some (a ++ [TextChunk (token.String op)] ++ b)
      | _, _ => None
      end
  | ast.CallExpr fn _ args =>
      match allSome (map (fun a => option_map render (exprChunks a)) args),
            typeName fn with
      | Some texts, Some ident =>
          Some [TextChunk (ident +++ "(" +++ Join texts ", " +++ ")")]
      | _, _ => None
      end
  | ast.IdentExpr id => Some [TextChunk (ast.Name id)]
  | ast.SelectorExpr x sel =>
      option_map (fun a => a ++ [TextChunk "."; TextChunk (ast.Name sel)])
        (exprChunks x)
  | ast.StarExpr _ x => option_map (cons (TextChunk "*")) (exprChunks x)
  | ast.UnaryExpr _ op x =>
      option_map (cons (TextChunk (token.String op))) (exprChunks x)
  | _ => None
  end.

Definition supported (e : ast.Expr) : Prop := exprChunks e <> None.

Definition unsupported (e : ast.Expr) : Prop := exprChunks e = None.

Definition exprsChunks (l : list ast.Expr) : list (list chunk) :=
  map (fun e => match exprChunks e with
                | Some ch => ch
                | None => []
                end) l.

(** The chunk with the type token that a definition puts before its first
    target. *)
Definition typeChunk (tok : token.Token) (rhs : list ast.Expr) : list chunk :=
  if token.Token_eqb tok token.DEFINE then
    match rhs with
    | [] => []
    | v :: _ => [TextChunk (typeFromExpr v +++ " ")]
    end
  else [].

(** A buffer sink over an input without comments, and a few nodes of the
    sketches to evaluate the handlers on. *)
Definition bufferSink : output :=
  {| out := Buffer; content := ""; lines := []; lastNode := None;
     c := []; err := None |}.

Definition ident (p : token.Pos) (name : string) : ast.Expr :=
  ast.IdentExpr {| ast.NamePos := p; ast.Name := name; ast.Obj := None |}.

Definition intLit (p : token.Pos) (value : string) : ast.Expr :=
  ast.BasicLit p token.INT value.

(** [a, b = 1, 2] *)
Definition swapAssign : ast.Stmt :=
  ast.AssignStmt [ident 10 "a"; ident 13 "b"] 15 token.ASSIGN
    [intLit 17 "1"; intLit 20 "2"].

(** [return a, b] *)
Definition returnPair : ast.Stmt :=
  ast.ReturnStmt 10 [ident 17 "a"; ident 20 "b"].

(** [brightness + fadeAmount] and [brightness := brightness + fadeAmount] *)
Definition fadeSum : ast.Expr :=
  ast.BinaryExpr (ident 24 "brightness") 35 token.ADD (ident 37 "fadeAmount").

Definition fadeDefine : ast.Stmt :=
  ast.AssignStmt [ident 10 "brightness"] 21 token.DEFINE [fadeSum].

Definition varName (p : token.Pos) (name : string) : ast.Ident :=
  {| ast.NamePos := p; ast.Name := name;
     ast.Obj := Some {| ast.Kind := ast.Var |} |}.




(** [var a, b int] *)
Definition twoNames : ast.ValueSpec :=
  {| ast.Names := [varName 18 "a"; varName 21 "b"];
     ast.ValueType := Some (ident 23 "int");
     ast.Values := [] |}.

(** [var a = b] and [var a, b = 1, 2] *)
Definition computedVar : ast.ValueSpec :=
  {| ast.Names := [varName 18 "a"];
     ast.ValueType := None;
     ast.Values := [ident 22 "b"] |}.

Definition twoValues : ast.ValueSpec :=
  {| ast.Names := [varName 18 "a"; varName 21 "b"];
     ast.ValueType := None;
     ast.Values := [intLit 25 "1"; intLit 28 "2"] |}.

(** [func f(xs ...int) {}] and [func g(xs ...int, n int) {}] *)
Definition funcOf (name : string) (params : list ast.Field) : ast.FuncDecl :=
  {| ast.Recv := None;
     ast.FuncName := {| ast.NamePos := 19; ast.Name := name;
                        ast.Obj := None |};
     ast.Type_ := {| ast.Func := 14;
                     ast.Params := {| ast.Opening := 20;
                                      ast.FieldsList := params |};
                     ast.Results := None |};
     ast.Body := Some (ast.Block 40 []) |}.

Definition variadicField : ast.Field :=
  {| ast.FieldNames := [varName 21 "xs"];
     ast.FieldType := ast.Ellipsis 24 (ident 27 "int") |}.

Definition intField : ast.Field :=
  {| ast.FieldNames := [varName 32 "n"];
     ast.FieldType := ident 34 "int" |}.

Definition trailingVariadic : ast.FuncDecl := funcOf "f" [variadicField].

Definition leadingVariadic : ast.FuncDecl :=
  funcOf "g" [variadicField; intField].

(** A field whose type is the variadic marker. *)
Definition isVariadic (f : ast.Field) : Prop :=
  exists p elt, ast.FieldType f = ast.Ellipsis p elt.

(** The comment list [cs] is settled for the node [n] when the comment
    loop of [Writef] has nothing to flush for [n]. *)
Definition settled {A} `{ast.Node A} (n : A) (cs : list ast.CommentGroup)
  : Prop :=
  forall w, flushComments n cs w = inr (w, cs, None).

(** The declaration lines of a value spec, one per name. *)
Definition declLines (typ lit : string) (names : list ast.Ident)
  : list chunk :=
  map (fun name => TextChunk (declLine typ name lit)) names.

(** [flushedPrefix cs w0 o]: the sink [o] of a run that started with the
    comment list [cs] and a writer holding [w0].  The groups still
    buffered are a suffix of [cs]; the comment lines written so far are a
    prefix of the lines of [cs], and exactly the lines of the groups
    dropped from the buffer as long as no write failed. *)
Definition flushedPrefix (cs : list ast.CommentGroup) (w0 : list chunk)
  (o : output) : Prop :=
  exists flushed new,
    cs = flushed ++ c o
    /\ written (out o) = w0 ++ new
    /\ (exists rest, commentTexts cs = commentsOf new ++ rest)
    /\ (err o = None -> commentsOf new = commentTexts flushed).

(** A handler preserves the property [I] of the sink. *)
Definition preserves {A} (I : output -> Prop) (m : M A) : Prop :=
  forall o a o', I o -> m o = Ret a o' -> I o'.

(** A buffer sink holding one comment group that starts at position 1,
    and the same sink once [var a, b int] went through it. *)
Definition pinsComment : ast.CommentGroup :=
  {| ast.CommentList := [{| ast.Slash := 1; ast.Text := "// pins" |}] |}.

Definition commentedSink : output :=
  {| out := Buffer; content := ""; lines := []; lastNode := None;
     c := [pinsComment]; err := None |}.

Definition declaredSink : output :=
  {| out := {| written := [CommentLine "// pins";
                           TextChunk ("int a = 0;" +++ nl);
                           TextChunk ("int b = 0;" +++ nl)];
               budget := None |};
     content := ""; lines := []; lastNode := None; c := []; err := None |}.

(** A sink with two comment groups, the second one after [var a, b int],
    the same sink once a text was written for that spec, and the file
    made of the two comments and the spec. *)
Definition loopComment : ast.CommentGroup :=
  {| ast.CommentList := [{| ast.Slash := 30; ast.Text := "// loop" |};
                         {| ast.Slash := 38; ast.Text := "// forever" |}] |}.

Definition twoCommentSink : output :=
  {| out := Buffer; content := ""; lines := []; lastNode := None;
     c := [pinsComment; loopComment]; err := None |}.

Definition oneCommentSink : output :=
  {| out := {| written := [CommentLine "// pins"; TextChunk "int"];
               budget := None |};
     content := ""; lines := []; lastNode := None;
     c := [loopComment]; err := None |}.

Definition commentedFile : ast.File :=
  {| ast.Imports := [];
     ast.Decls := [ast.GenDeclD {| ast.GenTokPos := 14;
                                   ast.Specs := [ast.ValueSpecS twoNames] |}];
     ast.Comments := [pinsComment; loopComment] |}.

Definition commentedFileSink : output :=
  {| out := {| written := [CommentLine "// pins";
                           TextChunk ("int a = 0;" +++ nl);
                           TextChunk ("int b = 0;" +++ nl)];
               budget := None |};
     content := ""; lines := []; lastNode := None;
     c := [loopComment]; err := None |}.

(** The [loop] function of the button sketch:
    [buttonState = digitalRead(buttonPin)] followed by an [if]/[else]
    that drives the LED. *)
Definition call (p : token.Pos) (fn : string) (args : list ast.Expr)
  : ast.Expr :=
  ast.CallExpr (ident p fn) (p + Z.of_nat (String.length fn)) args.

Definition buttonLoop : ast.FuncDecl :=
  {| ast.Recv := None;
     ast.FuncName := {| ast.NamePos := 105; ast.Name := "loop";
                        ast.Obj := None |};
     ast.Type_ := {| ast.Func := 100;
                     ast.Params := {| ast.Opening := 109;
                                      ast.FieldsList := [] |};
                     ast.Results := None |};
     ast.Body :=
       Some (ast.Block 112
               [ast.AssignStmt [ident 115 "buttonState"] 127 token.ASSIGN
                  [call 129 "digitalRead" [ident 141 "buttonPin"]];
                ast.IfStmt 153
                  (ast.BinaryExpr (ident 156 "buttonState") 168 token.EQL
                     (ident 171 "HIGH"))
                  (ast.Block 176
                     [ast.ExprStmt
                        (call 180 "digitalWrite"
                           [ident 193 "ledPin"; ident 201 "HIGH"])])
                  (Some (ast.BlockStmtS
                           (ast.Block 214
                              [ast.ExprStmt
                                 (call 218 "digitalWrite"
                                    [ident 231 "ledPin";
                                     ident 239 "LOW"])])))]) |}.

(* ------------------------------------------------------------------ *)
(** ** Induction over expressions and statements *)

(** Expressions nest through the argument list of a call. *)
Section ExprInduction.

Variable P : ast.Expr -> Prop.

Hypothesis HBasicLit : forall p kind value, P (ast.BasicLit p kind value).
Hypothesis HBinaryExpr :
  forall x p op y, P x -> P y -> P (ast.BinaryExpr x p op y).
Hypothesis HCallExpr :
  forall fn p args, P fn -> Forall P args -> P (ast.CallExpr fn p args).
Hypothesis HIdentExpr : forall id, P (ast.IdentExpr id).
Hypothesis HSelectorExpr : forall x sel, P x -> P (ast.SelectorExpr x sel).
Hypothesis HStarExpr : forall p x, P x -> P (ast.StarExpr p x).
Hypothesis HUnaryExpr : forall p op x, P x -> P (ast.UnaryExpr p op x).
Hypothesis HArrayType : forall p elt, P elt -> P (ast.ArrayType p elt).
Hypothesis HEllipsis : forall p elt, P elt -> P (ast.Ellipsis p elt).
Hypothesis HFuncType : forall p, P (ast.FuncType p).
Hypothesis HInterfaceType : forall p, P (ast.InterfaceType p).
Hypothesis HOtherExpr : forall p, P (ast.OtherExpr p).

Fixpoint Expr_nested_ind (e : ast.Expr) : P e :=
  match e with
  | ast.BasicLit p kind value => HBasicLit p kind value
  | ast.BinaryExpr x p op y =>
      HBinaryExpr x p op y (Expr_nested_ind x) (Expr_nested_ind y)
  | ast.CallExpr fn p args =>
      HCallExpr fn p args (Expr_nested_ind fn)
        ((fix all (l : list ast.Expr) : Forall P l :=
            match l with
            | [] => Forall_nil P
            | a :: r => Forall_cons a (Expr_nested_ind a) (all r)
            end) args)
  | ast.IdentExpr id => HIdentExpr id
  | ast.SelectorExpr x sel => HSelectorExpr x sel (Expr_nested_ind x)
  | ast.StarExpr p x => HStarExpr p x (Expr_nested_ind x)
  | ast.UnaryExpr p op x => HUnaryExpr p op x (Expr_nested_ind x)
  | ast.ArrayType p elt => HArrayType p elt (Expr_nested_ind elt)
  | ast.Ellipsis p elt => HEllipsis p elt (Expr_nested_ind elt)
  | ast.FuncType p => HFuncType p
  | ast.InterfaceType p => HInterfaceType p
  | ast.OtherExpr p => HOtherExpr p
  end.

End ExprInduction.

(** Statements nest through the statement list of a block and through the
    optional alternative of a conditional. *)
Section StmtInduction.

Variable P : ast.Stmt -> Prop.
Variable Q : ast.BlockStmt -> Prop.

Hypothesis HExprStmt : forall x, P (ast.ExprStmt x).
Hypothesis HAssignStmt : forall lhs p tok rhs, P (ast.AssignStmt lhs p tok rhs).
Hypothesis HIfStmt :
  forall p cond body els,
    Q body ->
    match els with
    | Some s => P s /\ match s with ast.BlockStmtS b => Q b | _ => True end
    | None => True
    end ->
    P (ast.IfStmt p cond body els).
Hypothesis HReturnStmt : forall p results, P (ast.ReturnStmt p results).
Hypothesis HBlockStmtS : forall b, Q b -> P (ast.BlockStmtS b).
Hypothesis HOtherStmt : forall p, P (ast.OtherStmt p).
Hypothesis HBlock : forall p l, Forall P l -> Q (ast.Block p l).

Fixpoint Stmt_nested_ind (s : ast.Stmt) : P s :=
  match s with
  | ast.ExprStmt x => HExprStmt x
  | ast.AssignStmt lhs p tok rhs => HAssignStmt lhs p tok rhs
  | ast.IfStmt p cond body els =>
      HIfStmt p cond body els (BlockStmt_nested_ind body)
        match els return
              match els with
              | Some s => P s /\ match s with
                                 | ast.BlockStmtS b => Q b
                                 | _ => True
                                 end
              | None => True
              end
        with
        | Some s' =>
            conj (Stmt_nested_ind s')
              match s' return match s' with
                              | ast.BlockStmtS b => Q b
                              | _ => True
                              end
              with
              | ast.BlockStmtS b => BlockStmt_nested_ind b
              | _ => Logic.I
              end
        | None => Logic.I
        end
  | ast.ReturnStmt p results => HReturnStmt p results
  | ast.BlockStmtS b => HBlockStmtS b (BlockStmt_nested_ind b)
  | ast.OtherStmt p => HOtherStmt p
  end
with BlockStmt_nested_ind (b : ast.BlockStmt) : Q b :=
  match b with
  | ast.Block p l =>
      HBlock p l
        ((fix all (l : list ast.Stmt) : Forall P l :=
            match l with
            | [] => Forall_nil P
            | s :: r => Forall_cons s (Stmt_nested_ind s) (all r)
            end) l)
  end.

End StmtInduction.

(* ------------------------------------------------------------------ *)
(** ** Vocabulary of the further properties *)

(** The text [handleExpr] prints for an expression of the subset: a
    literal and an identifier as they are, a binary and a unary operator
    without spaces, a member access with a dot, a dereference with a star
    and a call as [callee(arg1, arg2)]. *)
Fixpoint exprText (e : ast.Expr) : option string :=
  match e with
  | ast.BasicLit _ _ value => Some value
  | ast.BinaryExpr x _ op y =>
      match exprText x, exprText y with
      | Some a, Some b => Some (a +++ token.String op +++ b)
      | _, _ => None
      end
  | ast.CallExpr fn _ args =>
      match allSome (map exprText args), typeName fn with
      | Some texts, Some ident =>
          Some (ident +++ "(" +++ Join texts ", " +++ ")")
      | _, _ => None
      end
  | ast.IdentExpr id => Some (ast.Name id)
  | ast.SelectorExpr x sel =>
      option_map (fun a => a +++ "." +++ ast.Name sel) (exprText x)
  | ast.StarExpr _ x => option_map (String.append "*") (exprText x)
  | ast.UnaryExpr _ op x =>
      option_map (String.append (token.String op)) (exprText x)
  | _ => None
  end.

(** The variadic flag [exprTypeToType] returns with a spelling: pointers
    and arrays pass the flag of their element on, a member access drops
    it. *)
Fixpoint variadicFlag (n : ast.Expr) : bool :=
  match n with
  | ast.ArrayType _ elt => variadicFlag elt
  | ast.Ellipsis _ _ => true
  | ast.StarExpr _ x => variadicFlag x
  | _ => false
  end.

(** A parameter whose type has a spelling and no variadic marker, and the
    types [extractArgumentsType] lists for such parameters: one per bound
    name, one for a parameter without name. *)
Definition typedField (f : ast.Field) : Prop :=
  typeName (ast.FieldType f) <> None /\ variadicFlag (ast.FieldType f) = false.

Definition fieldTypes (fields : list ast.Field) : list string :=
  flat_map (fun f =>
              match typeName (ast.FieldType f) with
              | Some t =>
                  repeat t (Nat.max 1 (List.length (ast.FieldNames f)))
              | None => []
              end) fields.

(** The return type [handleFuncDecl] prints. *)
Definition returnType (fd : ast.FuncDecl) : option string :=
  match ast.Results (ast.Type_ fd) with
  | None => Some "void"
  | Some results =>
      match ast.FieldsList results with
      | [f] => typeName (ast.FieldType f)
      | _ => None
      end
  end.

(** The offsets of the newlines of [src] that are at most [p]. *)
Definition newlinesUpTo (src : string) (p : Z) : list Z :=
  filter (fun x => Z.leb x p) (newlines 0 src).

(** A sink over the two-line input ["ab" newline "cd" newline]. *)
Definition twoLineSink : output :=
  {| out := Buffer; content := "ab" +++ nl +++ "cd" +++ nl;
     lines := [2; 5]; lastNode := None; c := []; err := None |}.

(** A sink whose writer failed, with a comment still buffered. *)
Definition failedSink : output :=
  {| out := {| written := [TextChunk "int"]; budget := Some 0%nat |};
     content := ""; lines := []; lastNode := None;
     c := [pinsComment]; err := Some errorWrite |}.

(** [digitalWrite(ledPin, HIGH)] as a statement, [var x = 1.5],
    [const buttonPin = 2] and [func setup() { pinMode(ledPin, OUTPUT) }]
    with and without its body. *)
Definition writeHigh : ast.Stmt :=
  ast.ExprStmt (call 180 "digitalWrite" [ident 193 "ledPin"; ident 201 "HIGH"]).

Definition floatVar : ast.ValueSpec :=
  {| ast.Names := [varName 18 "x"];
     ast.ValueType := None;
     ast.Values := [ast.BasicLit 22 token.FLOAT "1.5"] |}.

Definition buttonPin : ast.ValueSpec :=
  {| ast.Names := [{| ast.NamePos := 20; ast.Name := "buttonPin";
                      ast.Obj := Some {| ast.Kind := ast.Con |} |}];
     ast.ValueType := None;
     ast.Values := [intLit 32 "2"] |}.

Definition setupBody : ast.BlockStmt :=
  ast.Block 40
    [ast.ExprStmt (call 44 "pinMode" [ident 52 "ledPin"; ident 60 "OUTPUT"])].

Definition setupFunc (body : option ast.BlockStmt) : ast.FuncDecl :=
  {| ast.Recv := None;
     ast.FuncName := {| ast.NamePos := 19; ast.Name := "setup";
                        ast.Obj := None |};
     ast.Type_ := {| ast.Func := 14;
                     ast.Params := {| ast.Opening := 24;
                                      ast.FieldsList := [] |};
                     ast.Results := None |};
     ast.Body := body |}.

(** [func (s *Servo) move(from, to int, int8)], parameters only. *)
Definition moveParams : list ast.Field :=
  [{| ast.FieldNames := [varName 30 "from"; varName 36 "to"];
      ast.FieldType := ident 39 "int" |};
   {| ast.FieldNames := [];
      ast.FieldType := ident 44 "int8" |}].

Definition servoRecv : ast.Field :=
  {| ast.FieldNames := [varName 20 "s"];
     ast.FieldType := ast.StarExpr 22 (ident 23 "Servo") |}.

Definition moveFunc : ast.FuncDecl :=
  {| ast.Recv := Some {| ast.Opening := 19; ast.FieldsList := [servoRecv] |};
     ast.FuncName := {| ast.NamePos := 30; ast.Name := "move";
                        ast.Obj := None |};
     ast.Type_ := {| ast.Func := 14;
                     ast.Params := {| ast.Opening := 29;
                                      ast.FieldsList := moveParams |};
                     ast.Results := None |};
     ast.Body := Some (ast.Block 50 []) |}.

(* ------------------------------------------------------------------ *)
(** * Properties *)

(** ** Strings *)

Lemma append_assoc (a b c : string) : (a +++ b) +++ c = a +++ (b +++ c).
Proof. induction a as [|ch a IH]; cbn; [reflexivity | now rewrite IH]. Qed.

(** ** The monad *)

Lemma bind_Ret {A B} (m : M A) (k : A -> M B) o a o' :
  m o = Ret a o' -> bind m k o = k a o'.
Proof. intros E. unfold bind. now rewrite E. Qed.

Lemma returnIfErr_None m k o o' :
  m o = Ret None o' -> returnIfErr m k o = k o'.
Proof. intros E. unfold returnIfErr. now rewrite (bind_Ret _ _ _ _ _ E). Qed.

Lemma returnIfErr_Some m k o e o' :
  m o = Ret (Some e) o' -> returnIfErr m k o = Ret (Some e) o'.
Proof. intros E. unfold returnIfErr. now rewrite (bind_Ret _ _ _ _ _ E). Qed.

(** ** Plain sinks *)

Lemma emit_nil o : emit o [] = o.
Proof.
  destruct o as [[wr bu] ct ls ln cs er]. unfold emit. cbn.
  now rewrite app_nil_r.
Qed.

Lemma plain_emit o l : plain o -> plain (emit o l).
Proof. unfold plain, emit. cbn. tauto. Qed.

Lemma Writef_plain {A} `{ast.Node A} (n : A) s o :
  plain o -> Writef n s o = Ret tt (emit o [TextChunk s]).
Proof.
  destruct o as [[wr bu] ct ls ln cs er]. unfold plain. cbn.
  intros (-> & -> & ->). reflexivity.
Qed.

Lemma Writef_plain_bind {A B} `{ast.Node A} (n : A) s (k : unit -> M B) o :
  plain o -> bind (Writef n s) k o = k tt (emit o [TextChunk s]).
Proof. intros P. apply bind_Ret. now apply Writef_plain. Qed.

(** Stepping a handler on a plain sink: every [Writef] appends its text. *)
Ltac plain_step :=
  match goal with
  | |- context [bind (Writef ?n ?s) ?k ?o] =>
      rewrite (Writef_plain_bind n s k o) by auto using plain_emit
  | |- context [Writef ?n ?s ?o] =>
      rewrite (Writef_plain n s o) by auto using plain_emit
  end.

(** ** The type mapper *)

(** C5: a pointer type and an array type over a named element type [t] are
    both spelled ["*" + t], with the variadic flag false and no error; in
    particular both spell [int] as ["*int"]. *)
Theorem exprTypeToType_pointer_array_erasure
  (t : ast.Ident) (star lbrack p : token.Pos) (o : output) :
  exprTypeToType (ast.StarExpr star (ast.IdentExpr t)) o
  = Ret ("*" +++ ast.Name t, false, None) o
  /\ exprTypeToType (ast.ArrayType lbrack (ast.IdentExpr t)) o
     = Ret ("*" +++ ast.Name t, false, None) o
  /\ exprTypeToType (ast.StarExpr star (ident p "int")) o
     = Ret ("*int", false, None) o
  /\ exprTypeToType (ast.ArrayType lbrack (ident p "int")) o
     = Ret ("*int", false, None) o.
Proof. repeat split. Qed.

(** The type mapper reads the sink for the line numbers of its errors and
    leaves it as it is. *)
Lemma exprTypeToType_pure n :
  forall o, exists r, exprTypeToType n o = Ret r o.
Proof.
  induction n; intros o; cbn [exprTypeToType];
    try (eexists; reflexivity).
  - destruct (IHn o) as [[[name extra] e] E].
    rewrite (bind_Ret _ _ _ _ _ E). destruct e; eexists; reflexivity.
  - destruct (IHn o) as [[[name extra] e] E].
    rewrite (bind_Ret _ _ _ _ _ E). destruct e; eexists; reflexivity.
  - destruct (IHn o) as [[[name extra] e] E].
    rewrite (bind_Ret _ _ _ _ _ E). destruct e; eexists; reflexivity.
  - destruct (IHn o) as [[[name extra] e] E].
    rewrite (bind_Ret _ _ _ _ _ E). eexists; reflexivity.
Qed.

Lemma exprTypeToType_Ellipsis p elt o name extra e :
  exprTypeToType elt o = Ret (name, extra, e) o ->
  exprTypeToType (ast.Ellipsis p elt) o = Ret (name, true, e) o.
Proof.
  intros E. cbn [exprTypeToType]. now rewrite (bind_Ret _ _ _ _ _ E).
Qed.

Lemma argumentTypes_variadic fields :
  forall types o,
    Exists isVariadic fields ->
    exists e, argumentTypes fields types o = Ret ([], Some e) o.
Proof.
  induction fields as [|arg r IH]; intros types o Hex.
  - inversion Hex.
  - cbn [argumentTypes].
    destruct (exprTypeToType_pure (ast.FieldType arg) o)
      as [[[t extra] e] E].
    rewrite (bind_Ret _ _ _ _ _ E).
    destruct e as [e|]; [eexists; reflexivity|].
    destruct extra; [eexists; reflexivity|].
    inversion Hex as [? ? (p & elt & Hty)|? ? Hr]; subst.
    + rewrite Hty in E.
      destruct (exprTypeToType_pure elt o) as [[[name extra'] e'] E'].
      rewrite (exprTypeToType_Ellipsis p elt o name extra' e' E') in E.
      discriminate.
    + now apply IH.
Qed.

(** C4 (amended): the type mapper spells a variadic type as its inner type
    and sets the variadic flag, with the inner error if there is one; and
    [extractArgumentsType] rejects a function as soon as one of its
    parameters carries the variadic marker, whatever its position, the
    last one included. *)
Theorem variadic_rejected_in_every_position :
  (forall p elt o name extra e,
      exprTypeToType elt o = Ret (name, extra, e) o ->
      exprTypeToType (ast.Ellipsis p elt) o = Ret (name, true, e) o)
  /\ (forall f o,
         Exists isVariadic (ast.FieldsList (ast.Params (ast.Type_ f))) ->
         exists e, extractArgumentsType f o = Ret ([], Some e) o).
Proof.
  split.
  - intros p elt o name extra e E.
    exact (exprTypeToType_Ellipsis p elt o name extra e E).
  - intros f o Hex. unfold extractArgumentsType.
    destruct (ast.Recv f) as [recv|].
    + destruct (ast.FieldsList recv) as [|r0 [|r1 rs]].
      * eexists; reflexivity.
      * destruct (ast.FieldType r0);
          try (now apply argumentTypes_variadic);
          apply argumentTypes_variadic; now apply Exists_cons_tl.
      * eexists; reflexivity.
    + now apply argumentTypes_variadic.
Qed.

Lemma variadic_rejected_in_every_position_witness :
  (exprTypeToType (ast.Ellipsis 24 (ident 27 "int")) bufferSink
   = Ret ("int", true, None) bufferSink)
  /\ (exists e,
         extractArgumentsType leadingVariadic bufferSink
         = Ret ([], Some e) bufferSink).
Proof.
  split.
  - refine (proj1 variadic_rejected_in_every_position
              24 (ident 27 "int") bufferSink "int" false None _).
    reflexivity.
  - refine (proj2 variadic_rejected_in_every_position
              leadingVariadic bufferSink _).
    apply Exists_cons_hd. exists 24, (ident 27 "int"). reflexivity.
Defined.

(** C4 (as stated) fails: in [func f(xs ...int)] the variadic marker is in
    the last position, and [extractArgumentsType] rejects it. *)
Lemma trailing_variadic_is_rejected :
  extractArgumentsType trailingVariadic bufferSink
  = Ret ([], Some (errorLine 1 "unsupported param type")) bufferSink.
Proof. reflexivity. Qed.

(** ** Printing on a plain sink *)

Lemma plain_withLastNode ln o : plain o -> plain (withLastNode ln o).
Proof. unfold plain, withLastNode. cbn. tauto. Qed.

Lemma emits_refl o : emits o [] o.
Proof.
  exists (lastNode o). rewrite emit_nil. now destruct o.
Qed.

Lemma emits_emit o l : emits o l (emit o l).
Proof. exists (lastNode o). reflexivity. Qed.

Lemma emits_plain o l o' : emits o l o' -> plain o -> plain o'.
Proof.
  intros [ln ->] P. now apply plain_withLastNode, plain_emit.
Qed.

Lemma emits_trans o a o1 b o2 :
  emits o a o1 -> emits o1 b o2 -> emits o (a ++ b) o2.
Proof.
  intros [l1 ->] [l2 ->]. exists l2.
  unfold withLastNode, emit. cbn. now rewrite app_assoc.
Qed.

Lemma emits_written o l o' :
  emits o l o' -> written (out o') = written (out o) ++ l.
Proof. now intros [ln ->]. Qed.

Lemma prints_ret : prints (ret None) [].
Proof. intros o P. exists o. split; [reflexivity | apply emits_refl]. Qed.

Lemma prints_Writef {A} `{ast.Node A} (n : A) s k l :
  prints k l -> prints (Writef n s ;; k) (TextChunk s :: l).
Proof.
  intros Hk o P. rewrite Writef_plain_bind by assumption.
  destruct (Hk _ (plain_emit _ [TextChunk s] P)) as (o' & E & Em).
  exists o'. split; [exact E|].
  exact (emits_trans _ _ _ _ _ (emits_emit o [TextChunk s]) Em).
Qed.

Lemma prints_skip k l : prints k l -> prints (ret tt ;; k) l.
Proof. intros Hk o P. exact (Hk o P). Qed.

Lemma prints_check m k a b :
  prints m a -> prints k b -> prints (check m ;; k) (a ++ b).
Proof.
  intros Hm Hk o P. destruct (Hm o P) as (o1 & E1 & Em1).
  destruct (Hk o1 (emits_plain _ _ _ Em1 P)) as (o2 & E2 & Em2).
  exists o2. rewrite (returnIfErr_None _ _ _ _ E1).
  split; [exact E2 | exact (emits_trans _ _ _ _ _ Em1 Em2)].
Qed.

Lemma prints_check_ret m a : prints m a -> prints (check m ;; ret None) a.
Proof.
  intros Hm. rewrite <- (app_nil_r a).
  apply prints_check; [exact Hm | apply prints_ret].
Qed.

Lemma fails_Writef {A} `{ast.Node A} (n : A) s k :
  fails k -> fails (Writef n s ;; k).
Proof.
  intros Hk o P. rewrite Writef_plain_bind by assumption.
  exact (Hk _ (plain_emit _ _ P)).
Qed.

Lemma fails_skip k : fails k -> fails (ret tt ;; k).
Proof. intros Hk o P. exact (Hk o P). Qed.

Lemma fails_check_l m k : fails m -> fails (check m ;; k).
Proof.
  intros Hm o P. destruct (Hm o P) as (e & o1 & E1).
  exists e, o1. exact (returnIfErr_Some _ _ _ _ _ E1).
Qed.

Lemma fails_check_r m k a : prints m a -> fails k -> fails (check m ;; k).
Proof.
  intros Hm Hk o P. destruct (Hm o P) as (o1 & E1 & Em1).
  rewrite (returnIfErr_None _ _ _ _ E1).
  exact (Hk o1 (emits_plain _ _ _ Em1 P)).
Qed.

Lemma fails_Errorf_Expr (e : ast.Expr) msg : fails (Errorf e msg).
Proof. intros o P. eexists _, _. reflexivity. Qed.

(** ** Expressions on a plain sink *)

Lemma exprTypeToType_typeName n :
  forall o,
    match typeName n with
    | Some s => exists extra, exprTypeToType n o = Ret (s, extra, None) o
    | None => exists s extra e, exprTypeToType n o = Ret (s, extra, Some e) o
    end.
Proof.
  induction n; intros o; cbn [typeName exprTypeToType];
    try (eexists; reflexivity); try (eexists _, _, _; reflexivity).
  - (* SelectorExpr *)
    specialize (IHn o). destruct (typeName n) as [x'|]; cbn [option_map].
    + destruct IHn as (extra & E). rewrite (bind_Ret _ _ _ _ _ E).
      eexists. reflexivity.
    + destruct IHn as (s & extra & e & E). rewrite (bind_Ret _ _ _ _ _ E).
      eexists _, _, _. reflexivity.
  - (* StarExpr *)
    specialize (IHn o). destruct (typeName n) as [x'|]; cbn [option_map].
    + destruct IHn as (extra & E). rewrite (bind_Ret _ _ _ _ _ E).
      eexists. reflexivity.
    + destruct IHn as (s & extra & e & E). rewrite (bind_Ret _ _ _ _ _ E).
      eexists _, _, _. reflexivity.
  - (* ArrayType *)
    specialize (IHn o). destruct (typeName n) as [x'|]; cbn [option_map].
    + destruct IHn as (extra & E). rewrite (bind_Ret _ _ _ _ _ E).
      eexists. reflexivity.
    + destruct IHn as (s & extra & e & E). rewrite (bind_Ret _ _ _ _ _ E).
      eexists _, _, _. reflexivity.
  - (* Ellipsis *)
    specialize (IHn o). destruct (typeName n) as [x'|].
    + destruct IHn as (extra & E). rewrite (bind_Ret _ _ _ _ _ E).
      eexists. reflexivity.
    + destruct IHn as (s & extra & e & E). rewrite (bind_Ret _ _ _ _ _ E).
      eexists _, _, _. reflexivity.
Qed.

Lemma plain_Reset tmp : plain tmp -> plain (Reset tmp).
Proof. unfold plain, Reset. cbn. tauto. Qed.

(** The argument loop: every argument is printed into the buffer of the
    temporary sink and its text is collected; the sink itself only has its
    last node updated. *)
Lemma callArgs_spec l :
  Forall (fun a => match exprChunks a with
                   | Some ch => prints (handleExpr a) ch
                   | None => fails (handleExpr a)
                   end) l ->
  forall tmp acc o,
    plain tmp ->
    match allSome (map (fun a => option_map render (exprChunks a)) l) with
    | Some texts =>
        exists ln,
          callArgs handleExpr l tmp acc o
          = Ret (acc ++ texts, None) (withLastNode ln o)
    | None =>
        exists args e o',
          callArgs handleExpr l tmp acc o = Ret (args, Some e) o'
    end.
Proof.
  induction 1 as [|a r Ha Hr IH]; intros tmp acc o P;
    cbn [map allSome callArgs].
  - exists (lastNode o). rewrite app_nil_r. now destruct o.
  - destruct (exprChunks a) as [ch|]; cbn [option_map].
    + destruct (Ha _ (plain_Reset _ P)) as (tmp' & E & Em).
      rewrite E. unfold bind, setLastNode.
      specialize (IH tmp' (acc ++ [String_ tmp'])
                    (withLastNode (Some a) o) (emits_plain _ _ _ Em (plain_Reset _ P))).
      change {| out := out o; content := content o; lines := lines o;
                lastNode := Some a; c := c o; err := err o |}
        with (withLastNode (Some a) o).
      destruct (allSome (map (fun a0 => option_map render (exprChunks a0)) r))
        as [texts|].
      * destruct IH as (ln & IH). exists ln. rewrite IH.
        unfold String_. rewrite (emits_written _ _ _ Em). cbn.
        now rewrite <- app_assoc.
      * exact IH.
    + destruct (Ha _ (plain_Reset _ P)) as (e & tmp' & E).
      rewrite E. eexists _, _, _. reflexivity.
Qed.

(** [handleExpr] prints the chunks of an expression of the subset, and
    fails on every other expression. *)
Lemma handleExpr_spec e :
  match exprChunks e with
  | Some ch => prints (handleExpr e) ch
  | None => fails (handleExpr e)
  end.
Proof.
  induction e using Expr_nested_ind; cbn [exprChunks handleExpr];
    try apply fails_Errorf_Expr.
  - (* BasicLit *) apply prints_Writef, prints_ret.
  - (* BinaryExpr *)
    unfold handleBinaryExpr.
    destruct (exprChunks e1) as [a|]; [|now apply fails_check_l].
    destruct (exprChunks e2) as [b|].
    + apply prints_check; [assumption|].
      apply prints_Writef. now apply prints_check_ret.
    + eapply fails_check_r; [eassumption|].
      apply fails_Writef. now apply fails_check_l.
  - (* CallExpr *)
    match goal with F : Forall _ _ |- _ => rename F into HF end.
    pose proof (callArgs_spec _ HF) as HA.
    destruct (allSome (map (fun a => option_map render (exprChunks a)) args))
      as [texts|] eqn:Etexts.
    + pose proof (exprTypeToType_typeName e) as HT.
      destruct (typeName e) as [ident|].
      * intros o P. unfold handleCallExpr.
        match goal with
        | |- context [callArgs handleExpr args ?tmp []] =>
            destruct (HA tmp [] o ltac:(repeat split)) as (ln & E)
        end.
        rewrite (bind_Ret _ _ _ _ _ E). cbn [app].
        destruct (HT (withLastNode ln o)) as (extra & ET).
        rewrite (bind_Ret _ _ _ _ _ ET).
        rewrite Writef_plain_bind by now apply plain_withLastNode.
        eexists. split; [reflexivity|]. exists ln. reflexivity.
      * intros o P. unfold handleCallExpr.
        match goal with
        | |- context [callArgs handleExpr args ?tmp []] =>
            destruct (HA tmp [] o ltac:(repeat split)) as (ln & E)
        end.
        rewrite (bind_Ret _ _ _ _ _ E).
        destruct (HT (withLastNode ln o)) as (s & extra & e' & ET).
        rewrite (bind_Ret _ _ _ _ _ ET). eexists _, _. reflexivity.
    + intros o P. unfold handleCallExpr.
      match goal with
      | |- context [callArgs handleExpr args ?tmp []] =>
          destruct (HA tmp [] o ltac:(repeat split)) as (args' & e' & o' & E)
      end.
      rewrite (bind_Ret _ _ _ _ _ E). eexists _, _. reflexivity.
  - (* IdentExpr *) unfold handleIdent. apply prints_Writef, prints_ret.
  - (* SelectorExpr *)
    destruct (exprChunks e) as [a|]; cbn [option_map];
      [|now apply fails_check_l].
    apply prints_check; [assumption|].
    apply prints_Writef. unfold handleIdent. apply prints_Writef, prints_ret.
  - (* StarExpr *)
    destruct (exprChunks e) as [a|]; cbn [option_map].
    + now apply prints_Writef.
    + now apply fails_Writef.
  - (* UnaryExpr *)
    destruct (exprChunks e) as [a|]; cbn [option_map].
    + now apply prints_Writef.
    + now apply fails_Writef.
Qed.

Lemma handleExpr_supported e ch :
  exprChunks e = Some ch -> prints (handleExpr e) ch.
Proof. intros E. pose proof (handleExpr_spec e) as H. now rewrite E in H. Qed.

Lemma handleExpr_unsupported e : unsupported e -> fails (handleExpr e).
Proof.
  unfold unsupported. intros E. pose proof (handleExpr_spec e) as H.
  now rewrite E in H.
Qed.

(** ** Assignments and returns *)

Lemma append_nil_r (a : string) : a +++ "" = a.
Proof. induction a as [|ch a IH]; cbn; [reflexivity | now rewrite IH]. Qed.

Lemma render_app a b : render (a ++ b) = render a +++ render b.
Proof.
  unfold render. induction a as [|k a IH]; cbn; [reflexivity|].
  now rewrite IH, append_assoc.
Qed.

Lemma Join_cons sep x r :
  Join (x :: r) sep = x +++ fold_right (fun y acc => sep +++ y +++ acc) "" r.
Proof.
  unfold Join. revert x. induction r as [|y r IH]; intros x; cbn.
  - now rewrite append_nil_r.
  - now rewrite <- IH.
Qed.

Lemma render_separated_from i chs :
  i <> 0%nat ->
  render (separated i chs)
  = fold_right (fun y acc => ", " +++ y +++ acc) "" (map render chs).
Proof.
  revert i. induction chs as [|ch r IH]; intros i Hi; cbn [separated map
                                                            fold_right].
  - reflexivity.
  - destruct i as [|i]; [congruence|]. cbn [Nat.eqb negb].
    rewrite !render_app, (IH (S (S i))) by congruence. reflexivity.
Qed.

(** The chunks of a list of expressions render as their texts joined by
    [", "]. *)
Lemma render_separated chs :
  render (separated 0 chs) = Join (map render chs) ", ".
Proof.
  destruct chs as [|ch r]; [reflexivity|].
  cbn [separated map Nat.eqb negb app]. rewrite Join_cons, render_app.
  now rewrite render_separated_from by congruence.
Qed.

Lemma supported_or_not l : Forall supported l \/ Exists unsupported l.
Proof.
  induction l as [|x r [IH|IH]]; [left; constructor | |].
  - destruct (exprChunks x) eqn:E.
    + left. constructor; [unfold supported; congruence | assumption].
    + right. now apply Exists_cons_hd.
  - right. now apply Exists_cons_tl.
Qed.

Lemma supported_chunks e : supported e -> exists ch, exprChunks e = Some ch.
Proof.
  unfold supported. destruct (exprChunks e) as [ch|]; [eauto | congruence].
Qed.

Lemma handleExprs_prints l :
  forall i,
    Forall supported l ->
    prints (handleExprs i l) (separated i (exprsChunks l)).
Proof.
  induction l as [|x r IH]; intros i F;
    cbn [handleExprs exprsChunks map separated].
  - apply prints_ret.
  - inversion F as [|? ? Hx Hr]; subst.
    destruct (supported_chunks x Hx) as [ch Ech]. rewrite Ech.
    destruct (negb (i =? 0)%nat).
    + cbn [app]. apply prints_Writef.
      apply prints_check; [now apply handleExpr_supported | now apply IH].
    + cbn [app]. apply prints_skip.
      apply prints_check; [now apply handleExpr_supported | now apply IH].
Qed.

Lemma handleExprs_fails l :
  forall i, Exists unsupported l -> fails (handleExprs i l).
Proof.
  induction l as [|x r IH]; intros i Hex; [inversion Hex|].
  cbn [handleExprs].
  assert (fails (check handleExpr x ;; handleExprs (S i) r)) as Hf.
  { destruct (exprChunks x) as [ch|] eqn:Ech.
    - inversion Hex as [? ? Hx|? ? Hr]; subst.
      + unfold unsupported in Hx. congruence.
      + eapply fails_check_r;
          [now apply handleExpr_supported; eassumption | now apply IH].
    - now apply fails_check_l, handleExpr_unsupported. }
  destruct (negb (i =? 0)%nat); [now apply fails_Writef | now apply fails_skip].
Qed.

(** After the first target the loop over the targets is the loop over a
    list of expressions. *)
Lemma handleLhs_from st tok rhs l :
  forall i, handleLhs st tok rhs (S i) l = handleExprs (S i) l.
Proof.
  induction l as [|x r IH]; intros i; cbn [handleLhs handleExprs Nat.eqb negb].
  - reflexivity.
  - now rewrite IH.
Qed.

Lemma handleLhs_prints st tok rhs l :
  rhs <> [] -> l <> [] -> Forall supported l ->
  prints (handleLhs st tok rhs 0 l)
    (typeChunk tok rhs ++ separated 0 (exprsChunks l)).
Proof.
  intros Hr Hl F. destruct l as [|x r]; [congruence|].
  destruct rhs as [|v rhs']; [congruence|].
  inversion F as [|? ? Hx Hr']; subst.
  destruct (supported_chunks x Hx) as [ch Ech].
  cbn [handleLhs exprsChunks map separated Nat.eqb negb nth_error app].
  rewrite Ech, handleLhs_from. unfold typeChunk.
  assert (prints (check handleExpr x ;; handleExprs 1 r)
            (ch ++ separated 1 (exprsChunks r))) as Hp
    by (apply prints_check;
        [now apply handleExpr_supported | now apply handleExprs_prints]).
  destruct (token.Token_eqb tok token.DEFINE).
  - now apply prints_Writef.
  - now apply prints_skip.
Qed.

Lemma handleLhs_fails st tok rhs l :
  rhs <> [] -> Exists unsupported l -> fails (handleLhs st tok rhs 0 l).
Proof.
  intros Hr Hex. destruct l as [|x r]; [inversion Hex|].
  destruct rhs as [|v rhs']; [congruence|].
  cbn [handleLhs Nat.eqb negb nth_error]. rewrite handleLhs_from.
  pose proof (handleExprs_fails (x :: r) 0 Hex) as Hf.
  cbn [handleExprs Nat.eqb negb] in Hf.
  assert (fails (check handleExpr x ;; handleExprs 1 r)) as Hf'
    by (intros o P; exact (Hf o P)).
  destruct (token.Token_eqb tok token.DEFINE);
    [now apply fails_Writef | now apply fails_skip].
Qed.

Lemma assign_token_accepted tok :
  tok = token.DEFINE \/ tok = token.ASSIGN ->
  negb (token.Token_eqb tok token.DEFINE)
  && negb (token.Token_eqb tok token.ASSIGN) = false.
Proof. intros [->| ->]; reflexivity. Qed.

Lemma assign_token_rejected tok :
  tok <> token.DEFINE -> tok <> token.ASSIGN ->
  negb (token.Token_eqb tok token.DEFINE)
  && negb (token.Token_eqb tok token.ASSIGN) = true.
Proof. intros Hd Ha. destruct tok; try reflexivity; congruence. Qed.

Lemma handleStmt_assign_prints lhs tokPos tok rhs :
  lhs <> [] -> rhs <> [] -> tok = token.DEFINE \/ tok = token.ASSIGN ->
  Forall supported lhs -> Forall supported rhs ->
  prints (handleStmt (ast.AssignStmt lhs tokPos tok rhs))
    ([TextChunk "  "] ++ typeChunk tok rhs
     ++ separated 0 (exprsChunks lhs)
     ++ [TextChunk " = "]
     ++ separated 0 (exprsChunks rhs)
     ++ [TextChunk (";" +++ nl)]).
Proof.
  intros Hl Hr Htok Fl Fr. cbn [handleStmt app].
  rewrite (assign_token_accepted tok Htok).
  apply prints_Writef. rewrite app_assoc.
  apply prints_check; [now apply handleLhs_prints|].
  apply prints_Writef.
  apply prints_check; [now apply handleExprs_prints|].
  apply prints_Writef, prints_ret.
Qed.

Lemma handleStmt_assign_fails lhs tokPos tok rhs :
  lhs <> [] -> rhs <> [] -> tok = token.DEFINE \/ tok = token.ASSIGN ->
  Exists unsupported (lhs ++ rhs) ->
  fails (handleStmt (ast.AssignStmt lhs tokPos tok rhs)).
Proof.
  intros Hl Hr Htok Hex. cbn [handleStmt].
  rewrite (assign_token_accepted tok Htok).
  apply fails_Writef.
  destruct (supported_or_not lhs) as [Fl|El].
  - apply Exists_app in Hex. destruct Hex as [El|Er].
    + now apply fails_check_l, handleLhs_fails.
    + eapply fails_check_r; [now apply handleLhs_prints|].
      apply fails_Writef. now apply fails_check_l, handleExprs_fails.
  - now apply fails_check_l, handleLhs_fails.
Qed.

(** C2 (amended): [handleStmt] puts no limit on the number of targets and
    values of an assignment.  On a plain sink, an assignment by [=] or [:=]
    returns no error when all its targets and values, however many, are
    expressions of the subset; it then prints the indentation, the type
    token of a definition, every target separated by [", "], [" = "],
    every value separated by [", "] and the terminator.  It returns an
    error when one of the targets or values is outside of the subset, and
    when the operator is neither [=] nor [:=] ("unexpected assignment",
    after the indentation).  The chunks of a list of expressions render as
    their texts joined by [", "]. *)
Theorem handleStmt_assign_any_arity lhs tokPos tok rhs :
  lhs <> [] -> rhs <> [] ->
  (tok = token.DEFINE \/ tok = token.ASSIGN ->
   (Forall supported (lhs ++ rhs) ->
    prints (handleStmt (ast.AssignStmt lhs tokPos tok rhs))
      ([TextChunk "  "] ++ typeChunk tok rhs
       ++ separated 0 (exprsChunks lhs)
       ++ [TextChunk " = "]
       ++ separated 0 (exprsChunks rhs)
       ++ [TextChunk (";" +++ nl)]))
   /\ (Exists unsupported (lhs ++ rhs) ->
       fails (handleStmt (ast.AssignStmt lhs tokPos tok rhs))))
  /\ (tok <> token.DEFINE -> tok <> token.ASSIGN ->
      forall o,
        plain o ->
        handleStmt (ast.AssignStmt lhs tokPos tok rhs) o
        = Ret (Some (errorLine
                       (findLine o (ast.Expr_Pos (hd (ast.OtherExpr 0) lhs)))
                       ("unexpected assignment: " +++ token.String tok)))
              (emit o [TextChunk "  "]))
  /\ (forall l,
         render (separated 0 (exprsChunks l))
         = Join (map render (exprsChunks l)) ", ").
Proof.
  intros Hl Hr. split; [|split].
  - intros Htok. split.
    + intros F. apply Forall_app in F. destruct F as [Fl Fr].
      now apply handleStmt_assign_prints.
    + now apply handleStmt_assign_fails.
  - intros Hd Ha o P. cbn [handleStmt]. plain_step.
    rewrite (assign_token_rejected tok Hd Ha).
    destruct lhs as [|x lhs']; [congruence|]. reflexivity.
  - intros l. apply render_separated.
Qed.

Lemma handleStmt_assign_any_arity_witness :
  exists o',
    handleStmt swapAssign bufferSink = Ret None o'
    /\ emits bufferSink
         [TextChunk "  "; TextChunk "a"; TextChunk ", "; TextChunk "b";
          TextChunk " = "; TextChunk "1"; TextChunk ", ";
          TextChunk "2"; TextChunk (";" +++ nl)] o'.
Proof.
  refine (proj1 (proj1 (handleStmt_assign_any_arity
                          [ident 10 "a"; ident 13 "b"] 15 token.ASSIGN
                          [intLit 17 "1"; intLit 20 "2"] _ _) _) _
            bufferSink _).
  - discriminate.
  - discriminate.
  - now right.
  - repeat constructor; discriminate.
  - repeat split.
Defined.

(** C2 (as stated) fails: [a, b = 1, 2] has two targets and two values,
    yet [handleStmt] returns no error and prints the whole statement. *)
Lemma handleStmt_assign_two_targets_no_error :
  exists o',
    handleStmt swapAssign bufferSink = Ret None o'
    /\ render (written (out o')) = "  a, b = 1, 2;" +++ nl.
Proof. eexists. split; reflexivity. Qed.

(** C3 (amended): [handleStmt] puts no limit on the number of results of a
    return statement.  On a plain sink, a return statement returns no
    error when all its results, however many (none included), are
    expressions of the subset; it then prints ["return "], every result
    separated by [", "] and the terminator.  It returns an error when one
    of the results is outside of the subset. *)
Theorem handleStmt_return_any_arity pos results :
  (Forall supported results ->
   prints (handleStmt (ast.ReturnStmt pos results))
     ([TextChunk "  "; TextChunk "return "]
      ++ separated 0 (exprsChunks results)
      ++ [TextChunk (";" +++ nl)]))
  /\ (Exists unsupported results ->
      fails (handleStmt (ast.ReturnStmt pos results))).
Proof.
  split.
  - intros F. cbn [handleStmt app]. do 2 apply prints_Writef.
    apply prints_check; [now apply handleExprs_prints|].
    apply prints_Writef, prints_ret.
  - intros Hex. cbn [handleStmt]. do 2 apply fails_Writef.
    now apply fails_check_l, handleExprs_fails.
Qed.

Lemma handleStmt_return_any_arity_witness :
  exists o',
    handleStmt returnPair bufferSink = Ret None o'
    /\ emits bufferSink
         [TextChunk "  "; TextChunk "return "; TextChunk "a";
          TextChunk ", "; TextChunk "b"; TextChunk (";" +++ nl)] o'.
Proof.
  refine (proj1 (handleStmt_return_any_arity 10
                   [ident 17 "a"; ident 20 "b"]) _ bufferSink _).
  - repeat constructor; discriminate.
  - repeat split.
Defined.

(** C3 (as stated) fails: [return a, b] carries two results, yet
    [handleStmt] returns no error and prints both. *)
Lemma handleStmt_return_two_results_no_error :
  exists o',
    handleStmt returnPair bufferSink = Ret None o'
    /\ render (written (out o')) = "  return a, b;" +++ nl.
Proof. eexists. split; reflexivity. Qed.

(** ** The type token of a definition *)

(** C9 (amended): the type token of a definition is the non-const C
    spelling of the literal kind when the value is a literal, the name of
    the identifier when the value is a bare identifier, and the empty
    string for every other value, a binary expression over identifiers
    included.  On a plain sink, [t := v] with a value [v] of the subset
    prints the indentation, the token, a space, the target, [" = "], the
    value and the terminator. *)
Theorem typeFromExpr_define_token :
  (forall p kind value,
      typeFromExpr (ast.BasicLit p kind value) = tokenStr kind false)
  /\ (forall id, typeFromExpr (ast.IdentExpr id) = ast.Name id)
  /\ (forall v,
         (forall p kind value, v <> ast.BasicLit p kind value) ->
         (forall id, v <> ast.IdentExpr id) ->
         typeFromExpr v = "")
  /\ (forall target tokPos v chv,
         exprChunks v = Some chv ->
         prints (handleStmt (ast.AssignStmt [ast.IdentExpr target] tokPos
                               token.DEFINE [v]))
           ([TextChunk "  ";
             TextChunk (typeFromExpr v +++ " ");
             TextChunk (ast.Name target);
             TextChunk " = "]
            ++ chv ++ [TextChunk (";" +++ nl)])).
Proof.
  split; [reflexivity|]. split; [reflexivity|]. split.
  - intros v Hlit Hid. destruct v; try reflexivity.
    + now destruct (Hlit ValuePos Kind Value).
    + now destruct (Hid id).
  - intros target tokPos v chv Ev.
    pose proof (handleStmt_assign_prints [ast.IdentExpr target] tokPos
                  token.DEFINE [v]) as Hp.
    cbn [exprsChunks map separated typeChunk token.Token_eqb exprChunks
         Nat.eqb negb app] in Hp.
    rewrite Ev in Hp. rewrite app_nil_r in Hp.
    apply Hp; try discriminate; auto.
    + repeat constructor; discriminate.
    + repeat constructor. unfold supported. congruence.
Qed.

Lemma typeFromExpr_define_token_witness :
  typeFromExpr fadeSum = ""
  /\ exists o',
      handleStmt fadeDefine bufferSink = Ret None o'
      /\ emits bufferSink
           [TextChunk "  "; TextChunk " "; TextChunk "brightness";
            TextChunk " = "; TextChunk "brightness"; TextChunk "+";
            TextChunk "fadeAmount"; TextChunk (";" +++ nl)] o'.
Proof.
  split.
  - refine (proj1 (proj2 (proj2 typeFromExpr_define_token)) fadeSum _ _);
      discriminate.
  - refine (proj2 (proj2 (proj2 typeFromExpr_define_token))
              {| ast.NamePos := 10; ast.Name := "brightness";
                 ast.Obj := None |} 21 fadeSum
              [TextChunk "brightness"; TextChunk "+"; TextChunk "fadeAmount"]
              _ bufferSink _).
    + reflexivity.
    + repeat split.
Defined.

(** C9 (as stated) fails: for [brightness := brightness + fadeAmount] the
    type token is the empty string, neither of the two identifiers, and
    the statement is printed with three spaces before the target. *)
Lemma typeFromExpr_binary_is_empty :
  typeFromExpr fadeSum = ""
  /\ typeFromExpr fadeSum <> "brightness"
  /\ typeFromExpr fadeSum <> "fadeAmount"
  /\ exists o',
       handleStmt fadeDefine bufferSink = Ret None o'
       /\ render (written (out o'))
          = "   brightness = brightness+fadeAmount;" +++ nl.
Proof.
  repeat split; try discriminate.
  eexists. split; reflexivity.
Qed.

(** ** Value specs *)

(** C6: for a value spec without initializer whose explicit type is an
    identifier, [guessType] returns [(INT, "0")] for [int], [(STRING,
    two double quotes)] for [string], and the error "unsupported type"
    for every other identifier. *)
Theorem guessType_zero_initializers (vs : ast.ValueSpec) (id : ast.Ident) :
  ast.Values vs = [] ->
  ast.ValueType vs = Some (ast.IdentExpr id) ->
  (ast.Name id = "int" -> guessType vs = inr (token.INT, "0", None))
  /\ (ast.Name id = "string" ->
      guessType vs = inr (token.STRING, dquote +++ dquote, None))
  /\ (ast.Name id <> "int" -> ast.Name id <> "string" ->
      guessType vs
      = inr (token.ILLEGAL, "",
             Some (errorString ("unsupported type: " +++ ast.Name id)))).
Proof.
  intros Hv Ht. unfold guessType. rewrite Hv, Ht. repeat split.
  - intros ->. reflexivity.
  - intros ->. reflexivity.
  - intros Hi Hs.
    destruct (String.eqb_spec (ast.Name id) "int") as [E|_]; [congruence|].
    destruct (String.eqb_spec (ast.Name id) "string") as [E|_];
      [congruence|].
    reflexivity.
Qed.

Lemma guessType_zero_initializers_witness :
  guessType twoNames = inr (token.INT, "0", None)
  /\ guessType {| ast.Names := [varName 18 "s"];
                  ast.ValueType := Some (ident 20 "string");
                  ast.Values := [] |}
     = inr (token.STRING, dquote +++ dquote, None)
  /\ guessType {| ast.Names := [varName 18 "f"];
                  ast.ValueType := Some (ident 20 "float64");
                  ast.Values := [] |}
     = inr (token.ILLEGAL, "",
            Some (errorString "unsupported type: float64")).
Proof.
  split; [|split].
  - refine (proj1 (guessType_zero_initializers twoNames
              {| ast.NamePos := 23; ast.Name := "int"; ast.Obj := None |}
              _ _) _); reflexivity.
  - refine (proj1 (proj2 (guessType_zero_initializers _
              {| ast.NamePos := 20; ast.Name := "string"; ast.Obj := None |}
              _ _)) _); reflexivity.
  - refine (proj2 (proj2 (guessType_zero_initializers _
              {| ast.NamePos := 20; ast.Name := "float64"; ast.Obj := None |}
              _ _)) _ _); try reflexivity; discriminate.
Defined.



(** A value spec that [guessType] rejects is reported at the line of its
    first name, and nothing is written. *)
Lemma handleValueSpec_guessType_error vs name names kind lit e o :
  ast.Names vs = name :: names ->
  guessType vs = inr (kind, lit, Some e) ->
  handleValueSpec vs o
  = Ret (Some (errorLine (findLine o (ast.NamePos name)) (Error e))) o.
Proof.
  intros Hn Hg. unfold handleValueSpec. rewrite Hn, Hg. cbn [List.length Nat.eqb].
  unfold Errorf, ast.Pos, ast.ValueSpec_Node, ast.ValueSpec_Pos.
  now rewrite Hn.
Qed.

(** C8 (amended): a value spec with more than one initializer, or whose
    single initializer is not a literal, is rejected with an error at the
    line of its first name and nothing is written, however many names it
    binds; the number of names alone is no reason for an error. *)
Theorem handleValueSpec_unsupported_initializer vs name names o :
  ast.Names vs = name :: names ->
  (forall v1 v2 vr,
      ast.Values vs = v1 :: v2 :: vr ->
      handleValueSpec vs o
      = Ret (Some (errorLine (findLine o (ast.NamePos name))
                     "unsupported # of values")) o)
  /\ (forall v,
         ast.Values vs = [v] ->
         (forall p kind value, v <> ast.BasicLit p kind value) ->
         handleValueSpec vs o
         = Ret (Some (errorLine (findLine o (ast.NamePos name))
                        "unsupported value")) o).
Proof.
  intros Hn. split.
  - intros v1 v2 vr Hv.
    apply (handleValueSpec_guessType_error vs name names token.ILLEGAL ""
             (errorString "unsupported # of values") o Hn).
    unfold guessType. now rewrite Hv.
  - intros v Hv Hlit.
    apply (handleValueSpec_guessType_error vs name names token.ILLEGAL ""
             (errorString "unsupported value") o Hn).
    unfold guessType. rewrite Hv.
    destruct v; try reflexivity. now destruct (Hlit ValuePos Kind Value).
Qed.

Lemma handleValueSpec_unsupported_initializer_witness :
  handleValueSpec twoValues bufferSink
  = Ret (Some (errorLine 1 "unsupported # of values")) bufferSink
  /\ handleValueSpec computedVar bufferSink
     = Ret (Some (errorLine 1 "unsupported value")) bufferSink.
Proof.
  split.
  - refine (proj1 (handleValueSpec_unsupported_initializer twoValues
                     (varName 18 "a") [varName 21 "b"] bufferSink _)
              (intLit 25 "1") (intLit 28 "2") [] _); reflexivity.
  - refine (proj2 (handleValueSpec_unsupported_initializer computedVar
                     (varName 18 "a") [] bufferSink _)
              (ident 22 "b") _ _); try reflexivity.
    intros p kind value. discriminate.
Defined.

(** C8 (as stated) fails: [var a, b int] binds more than one name, yet
    [handleValueSpec] returns no error and declares both. *)
Lemma handleValueSpec_two_names_no_error :
  exists o',
    handleValueSpec twoNames bufferSink = Ret None o'
    /\ render (written (out o')) = "int a = 0;" +++ nl +++ "int b = 0;" +++ nl.
Proof. eexists. split; [cbv; reflexivity | reflexivity]. Qed.

(** ** The comment loop of [Writef] *)

Lemma commentsOf_app a b : commentsOf (a ++ b) = commentsOf a ++ commentsOf b.
Proof.
  induction a as [|[s|t] a IH]; cbn; [reflexivity | exact IH | now rewrite IH].
Qed.

Lemma commentsOf_CommentLine l : commentsOf (map CommentLine l) = l.
Proof. induction l as [|x l IH]; cbn; [reflexivity | now rewrite IH]. Qed.

Lemma commentsOf_commentChunks gs : commentsOf (commentChunks gs) = commentTexts gs.
Proof. apply commentsOf_CommentLine. Qed.

Lemma commentTexts_app a b : commentTexts (a ++ b) = commentTexts a ++ commentTexts b.
Proof. apply flat_map_app. Qed.

Lemma Fprintf_spec w k w' e :
  Fprintf w k = (w', e) ->
  (e = None /\ written w' = written w ++ [k])
  \/ (e = Some errorWrite /\ w' = w).
Proof.
  unfold Fprintf. destruct (budget w) as [[|b]|]; intros E; inversion E; auto.
Qed.

Lemma writeComments_spec l :
  forall w w' e,
    writeComments l w = (w', e) ->
    exists l1 l2,
      l = l1 ++ l2
      /\ written w' = written w ++ map CommentLine (map ast.Text l1)
      /\ (e = None -> l2 = []).
Proof.
  induction l as [|cm r IH]; intros w w' e E; cbn in E.
  - inversion E; subst. exists [], []. cbn. now rewrite app_nil_r.
  - destruct (Fprintf w (CommentLine (ast.Text cm))) as [w1 [e1|]] eqn:F.
    + inversion E; subst.
      destruct (Fprintf_spec _ _ _ _ F) as [[? _]|[_ ->]]; [discriminate|].
      exists [], (cm :: r). cbn. rewrite app_nil_r. repeat split.
      discriminate.
    + destruct (Fprintf_spec _ _ _ _ F) as [[_ W1]|[? _]]; [|discriminate].
      destruct (IH _ _ _ E) as (l1 & l2 & -> & W & N).
      exists (cm :: l1), l2. cbn. rewrite W, W1, <- app_assoc. auto.
Qed.

Lemma flushComments_spec {A} `{ast.Node A} (n : A) cs :
  forall w w' cs' e,
    flushComments n cs w = inr (w', cs', e) ->
    exists gs extra,
      cs = gs ++ cs'
      /\ written w' = written w ++ commentChunks gs ++ map CommentLine extra
      /\ (e = None -> extra = [])
      /\ (exists rest, commentTexts cs' = extra ++ rest)
      /\ (e = None -> settled n cs').
Proof.
  induction cs as [|g rest IH]; intros w w' cs' e E; cbn [flushComments] in E.
  - inversion E; subst. exists [], []. cbn. rewrite app_nil_r.
    repeat split; eauto; intros _ w0; reflexivity.
  - destruct (ast.Pos n) as [p|np] eqn:Pn; [discriminate|].
    destruct (ast.Pos g) as [p|gp] eqn:Pg; [discriminate|].
    destruct (np >? gp) eqn:Cmp.
    + destruct (writeComments (ast.CommentList g) w) as [w1 [e1|]] eqn:Wc.
      * inversion E; subst.
        destruct (writeComments_spec _ _ _ _ Wc) as (l1 & l2 & L & W & _).
        exists [], (map ast.Text l1). cbn [app commentChunks commentTexts
                                            flat_map map].
        repeat split; auto; try discriminate.
        exists (map ast.Text l2 ++ commentTexts rest).
        rewrite L, map_app, <- app_assoc. reflexivity.
      * destruct (writeComments_spec _ _ _ _ Wc) as (l1 & l2 & L & W & N).
        rewrite (N eq_refl), app_nil_r in L. subst l1.
        destruct (IH _ _ _ _ E) as (gs & extra & -> & W' & N' & R & S).
        exists (g :: gs), extra. repeat split; auto.
        rewrite W', W. unfold commentChunks. cbn [commentTexts flat_map].
        now rewrite map_app, <- !app_assoc.
    + inversion E; subst. exists [], []. cbn. rewrite app_nil_r.
      repeat split; eauto; intros _ w0; cbn [flushComments];
        now rewrite Pn, Pg, Cmp.
Qed.

(** What a call of [Writef] does to the sink. *)
Lemma Writef_spec {A} `{ast.Node A} (n : A) s o o' :
  Writef n s o = Ret tt o' ->
  (err o <> None /\ o' = o)
  \/ (err o = None
      /\ content o' = content o /\ lines o' = lines o
      /\ lastNode o' = lastNode o
      /\ exists gs extra,
          c o = gs ++ c o'
          /\ written (out o')
             = written (out o) ++ commentChunks gs ++ map CommentLine extra
               ++ match err o' with
                  | Some _ => []
                  | None => [TextChunk s]
                  end
          /\ (err o' = None -> extra = [])
          /\ (exists rest, commentTexts (c o') = extra ++ rest)
          /\ (err o' = None -> settled n (c o'))).
Proof.
  unfold Writef. destruct (err o) as [e0|] eqn:E0.
  - intros E. inversion E; subst. left. split; [congruence | reflexivity].
  - destruct (flushComments n (c o) (out o)) as [p|[[w cs'] e]] eqn:F;
      [discriminate|].
    destruct (flushComments_spec _ _ _ _ _ _ F)
      as (gs & extra & C & W & N & R & S).
    destruct e as [e|].
    + intros E. inversion E; subst; clear E. right. cbn.
      repeat split; auto. exists gs, extra. rewrite app_nil_r.
      repeat split; auto; discriminate.
    + destruct (Fprintf w (TextChunk s)) as [w' e'] eqn:Fp.
      intros E. inversion E; subst; clear E. right. cbn.
      repeat split; auto. exists gs, extra.
      destruct (Fprintf_spec _ _ _ _ Fp) as [[-> W']|[-> ->]].
      * rewrite W', W, (N eq_refl). cbn. rewrite <- !app_assoc.
        repeat split; eauto.
      * rewrite W, (N eq_refl). cbn. rewrite !app_nil_r.
        repeat split; eauto; discriminate.
Qed.

Lemma Writef_ok {A} `{ast.Node A} (n : A) s o o' :
  Writef n s o = Ret tt o' -> err o' = None ->
  err o = None
  /\ exists gs,
      c o = gs ++ c o'
      /\ written (out o') = written (out o) ++ commentChunks gs ++ [TextChunk s]
      /\ settled n (c o').
Proof.
  intros E N. destruct (Writef_spec _ _ _ _ E) as [[Ne ->]|(E0 & _ & _ & _ & R)].
  - congruence.
  - destruct R as (gs & extra & C & W & X & _ & S). split; [assumption|].
    exists gs. rewrite (X N), N in W. cbn in W. auto.
Qed.

Lemma Writef_failed {A} `{ast.Node A} (n : A) s o :
  err o <> None -> Writef n s o = Ret tt o.
Proof. unfold Writef. destruct (err o); [reflexivity | congruence]. Qed.

Lemma Writef_settled {A} `{ast.Node A} (n : A) s o o' :
  settled n (c o) ->
  Writef n s o = Ret tt o' -> err o' = None ->
  c o' = c o /\ written (out o') = written (out o) ++ [TextChunk s].
Proof.
  intros S E N. unfold Writef in E.
  destruct (err o) eqn:E0; [inversion E; subst; congruence|].
  rewrite (S (out o)) in E.
  destruct (Fprintf (out o) (TextChunk s)) as [w' e'] eqn:Fp.
  inversion E; subst; clear E. cbn in *. subst e'.
  destruct (Fprintf_spec _ _ _ _ Fp) as [[_ W]|[? _]]; [auto | discriminate].
Qed.

(** ** Declaration fan-out *)

Lemma Errorf_not_None {A} `{ast.Node A} (n : A) msg o o' :
  Errorf n msg o <> Ret None o'.
Proof. unfold Errorf. destruct (ast.Pos n); discriminate. Qed.

Lemma writeDecls_failed vs typ lit names :
  forall o, err o <> None -> writeDecls vs typ lit names o = Ret tt o.
Proof.
  induction names as [|name r IH]; intros o Ne; cbn [writeDecls].
  - reflexivity.
  - rewrite (bind_Ret _ _ _ _ _ (Writef_failed vs _ o Ne)). now apply IH.
Qed.

Lemma writeDecls_settled vs typ lit names :
  forall o o',
    settled vs (c o) ->
    writeDecls vs typ lit names o = Ret tt o' -> err o' = None ->
    c o' = c o /\ written (out o') = written (out o) ++ declLines typ lit names.
Proof.
  induction names as [|name r IH]; intros o o' S E N; cbn [writeDecls] in E.
  - inversion E; subst. cbn. now rewrite app_nil_r.
  - unfold bind in E.
    destruct (Writef vs (declLine typ name lit) o) as [[] o1|p] eqn:W;
      [|discriminate].
    destruct (err o1) as [e1|] eqn:E1.
    + rewrite writeDecls_failed in E by congruence.
      inversion E; subst. congruence.
    + destruct (Writef_settled _ _ _ _ S W E1) as [C1 W1].
      rewrite <- C1 in S. destruct (IH _ _ S E N) as [C2 W2].
      split; [congruence|]. rewrite W2, W1. cbn. now rewrite <- app_assoc.
Qed.

Lemma writeDecls_ok vs typ lit names o o' :
  names <> [] ->
  writeDecls vs typ lit names o = Ret tt o' -> err o' = None ->
  exists gs,
    c o = gs ++ c o'
    /\ written (out o')
       = written (out o) ++ commentChunks gs ++ declLines typ lit names.
Proof.
  destruct names as [|name r]; [congruence|]. intros _ E N.
  cbn [writeDecls] in E. unfold bind in E.
  destruct (Writef vs (declLine typ name lit) o) as [[] o1|p] eqn:W;
    [|discriminate].
  destruct (err o1) as [e1|] eqn:E1.
  - rewrite writeDecls_failed in E by congruence.
    inversion E; subst. congruence.
  - destruct (Writef_ok _ _ _ _ W E1) as (_ & gs & C1 & W1 & S).
    destruct (writeDecls_settled _ _ _ _ _ _ S E N) as [C2 W2].
    exists gs. split; [congruence|].
    rewrite W2, W1. cbn. now rewrite <- !app_assoc.
Qed.

(** C7: a value spec that [handleValueSpec] accepts, on a sink that
    recorded no write error, binds [N >= 1] names and gets exactly [N]
    declaration lines written, in the order of the names, after the
    comment groups flushed in front of the first one; each line is the
    same type token, the name, [=], the same literal and [;]. *)
Theorem handleValueSpec_fan_out vs o o' :
  handleValueSpec vs o = Ret None o' -> err o' = None ->
  exists kind lit isConst gs,
    guessType vs = inr (kind, lit, None)
    /\ isValueConst vs = inr isConst
    /\ c o = gs ++ c o'
    /\ written (out o')
       = written (out o) ++ commentChunks gs
         ++ declLines (tokenStr kind isConst) lit (ast.Names vs)
    /\ List.length (declLines (tokenStr kind isConst) lit (ast.Names vs))
       = List.length (ast.Names vs)
    /\ (1 <= List.length (ast.Names vs))%nat
    /\ forall name,
        declLine (tokenStr kind isConst) name lit
        = tokenStr kind isConst +++ " " +++ ast.Name name +++ " = " +++ lit
          +++ ";" +++ nl.
Proof.
  unfold handleValueSpec. intros E N.
  destruct (ast.Names vs) as [|name names] eqn:Hn.
  - cbn in E. now apply Errorf_not_None in E.
  - cbn [List.length Nat.eqb] in E.
    destruct (guessType vs) as [p|[[kind lit] [e|]]] eqn:G.
    + discriminate.
    + now apply Errorf_not_None in E.
    + destruct (isValueConst vs) as [p|isConst] eqn:Cn; [discriminate|].
      cbv zeta in E.
      destruct (String.length (tokenStr kind isConst) =? 0)%nat.
      * now apply Errorf_not_None in E.
      * unfold bind in E.
        destruct (writeDecls vs (tokenStr kind isConst) lit (name :: names) o)
          as [[] o1|p] eqn:W; [|discriminate].
        inversion E; subst o1; clear E.
        assert (Hne : name :: names <> []) by discriminate.
        destruct (writeDecls_ok _ _ _ _ _ _ Hne W N) as (gs & C & Wr).
        exists kind, lit, isConst, gs. repeat split; auto.
        -- unfold declLines. now rewrite length_map.
        -- cbn. lia.
        -- intros name0. unfold declLine, Join. cbn [String.concat].
           generalize (tokenStr kind isConst). intros typ.
           rewrite !append_assoc. reflexivity.
Qed.

Lemma handleValueSpec_fan_out_witness :
  exists kind lit isConst gs,
    guessType twoNames = inr (kind, lit, None)
    /\ isValueConst twoNames = inr isConst
    /\ c commentedSink = gs ++ c declaredSink
    /\ written (out declaredSink)
       = written (out commentedSink) ++ commentChunks gs
         ++ declLines (tokenStr kind isConst) lit (ast.Names twoNames)
    /\ List.length (declLines (tokenStr kind isConst) lit (ast.Names twoNames))
       = List.length (ast.Names twoNames)
    /\ (1 <= List.length (ast.Names twoNames))%nat
    /\ forall name,
        declLine (tokenStr kind isConst) name lit
        = tokenStr kind isConst +++ " " +++ ast.Name name +++ " = " +++ lit
          +++ ";" +++ nl.
Proof.
  refine (handleValueSpec_fan_out twoNames commentedSink declaredSink _ _).
  - vm_compute. reflexivity.
  - reflexivity.
Defined.

(** ** Properties of the sink that every handler preserves *)

Section Preservation.

Variable I : output -> Prop.

Hypothesis I_Writef :
  forall A (H : ast.Node A) (n : A) s, preserves I (Writef n s).
Hypothesis I_setLastNode : forall a, preserves I (setLastNode a).

Lemma preserves_ret {A} (a : A) : preserves I (ret a).
Proof. intros o a' o' Io E. inversion E; subst. exact Io. Qed.

Lemma preserves_throw {A} p : preserves I (@throw A p).
Proof. intros o a' o' Io E. discriminate. Qed.

Lemma preserves_bind {A B} (m : M A) (k : A -> M B) :
  preserves I m -> (forall a, preserves I (k a)) -> preserves I (bind m k).
Proof.
  intros Hm Hk o b o' Io E. unfold bind in E.
  destruct (m o) as [a o1|p] eqn:Em; [|discriminate].
  exact (Hk a o1 b o' (Hm o a o1 Io Em) E).
Qed.

Lemma preserves_returnIfErr m k :
  preserves I m -> preserves I k -> preserves I (returnIfErr m k).
Proof.
  intros Hm Hk. apply preserves_bind; [exact Hm|].
  intros [e|]; [apply preserves_ret | exact Hk].
Qed.

Lemma preserves_Errorf {A} `{ast.Node A} (n : A) msg :
  preserves I (Errorf n msg).
Proof.
  intros o a o' Io E. unfold Errorf in E.
  destruct (ast.Pos n); inversion E; subst. exact Io.
Qed.

Lemma preserves_exprTypeToType n : preserves I (exprTypeToType n).
Proof.
  intros o a o' Io E. destruct (exprTypeToType_pure n o) as [r E'].
  rewrite E' in E. inversion E; subst. exact Io.
Qed.

Ltac preserve :=
  repeat first
    [ assumption
    | apply preserves_ret
    | apply preserves_throw
    | apply preserves_Errorf
    | apply preserves_exprTypeToType
    | apply I_Writef
    | apply I_setLastNode
    | apply preserves_returnIfErr
    | apply preserves_bind; [|intro]
    | match goal with
      | |- preserves _ (match ?x with _ => _ end) => destruct x
      end ].

Lemma preserves_callArgs h l :
  forall tmp args, preserves I (callArgs h l tmp args).
Proof.
  induction l as [|a r IH]; intros tmp args; cbn [callArgs]; preserve;
    apply IH.
Qed.

Lemma preserves_handleExpr e : preserves I (handleExpr e).
Proof.
  induction e; cbn [handleExpr];
    unfold handleBinaryExpr; try solve [preserve].
  intros o a o' Io E. unfold handleCallExpr in E.
  revert E. apply preserves_bind; auto using preserves_callArgs.
  intro. preserve.
Qed.

Lemma preserves_handleExprs l : forall i, preserves I (handleExprs i l).
Proof.
  induction l as [|x r IH]; intros i; cbn [handleExprs]; preserve;
    auto using preserves_handleExpr.
Qed.

Lemma preserves_handleLhs st tok rhs l :
  forall i, preserves I (handleLhs st tok rhs i l).
Proof.
  induction l as [|x r IH]; intros i; cbn [handleLhs]; preserve;
    auto using preserves_handleExpr.
Qed.

Lemma preserves_handleStmt s : preserves I (handleStmt s).
Proof.
  induction s using Stmt_nested_ind
    with (Q := fun b => preserves I (handleBlockStmt b));
    try (cbn [handleStmt]; preserve;
         auto using preserves_handleExpr, preserves_handleExprs,
           preserves_handleLhs).
  - tauto.
  - cbn [handleBlockStmt].
    match goal with H : Forall _ _ |- _ => induction H end; preserve.
Qed.

Lemma preserves_handleBlockStmt b : preserves I (handleBlockStmt b).
Proof.
  destruct b as [p l]. cbn [handleBlockStmt].
  induction l as [|s r IH]; preserve. apply preserves_handleStmt.
Qed.

Lemma preserves_writeDecls vs typ lit names :
  preserves I (writeDecls vs typ lit names).
Proof. induction names as [|name r IH]; cbn [writeDecls]; preserve. Qed.

Lemma preserves_handleValueSpec vs : preserves I (handleValueSpec vs).
Proof.
  unfold handleValueSpec. preserve. cbv zeta. preserve.
  apply preserves_writeDecls.
Qed.

Lemma preserves_handleSpecs specs : preserves I (handleSpecs specs).
Proof.
  induction specs as [|s r IH]; cbn [handleSpecs]; preserve.
  apply preserves_handleValueSpec.
Qed.

Lemma preserves_argumentTypes fields :
  forall types, preserves I (argumentTypes fields types).
Proof.
  induction fields as [|arg r IH]; intros types; cbn [argumentTypes];
    preserve. cbv zeta. apply IH.
Qed.

Lemma preserves_extractArgumentsType f : preserves I (extractArgumentsType f).
Proof.
  unfold extractArgumentsType. cbv zeta.
  preserve; apply preserves_argumentTypes.
Qed.

Lemma preserves_handleFuncDecl fd : preserves I (handleFuncDecl fd).
Proof.
  unfold handleFuncDecl. preserve;
    first [ apply preserves_extractArgumentsType
          | apply preserves_handleBlockStmt ].
Qed.

Lemma preserves_handleDecl d : preserves I (handleDecl d).
Proof.
  destruct d; cbn [handleDecl].
  - unfold handleGenDecl. apply preserves_handleSpecs.
  - apply preserves_handleFuncDecl.
  - preserve.
Qed.

Lemma preserves_writeImports l : preserves I (writeImports l).
Proof. induction l as [|i r IH]; cbn [writeImports]; preserve. Qed.

Lemma preserves_handleDecls l : preserves I (handleDecls l).
Proof.
  induction l as [|d r IH]; cbn [handleDecls].
  - intros o a o' Io E. inversion E; subst. exact Io.
  - apply preserves_returnIfErr; [apply preserves_handleDecl|].
    intros o a o' Io E. destruct (err o).
    + inversion E; subst. exact Io.
    + exact (IH o a o' Io E).
Qed.

End Preservation.

(** ** Comment ordering *)

Lemma flushedPrefix_Writef cs w0 A (H : ast.Node A) (n : A) s :
  preserves (flushedPrefix cs w0) (Writef n s).
Proof.
  intros o [] o' (flushed & new & C & W & (rest & R) & N) E.
  destruct (Writef_spec _ _ _ _ E)
    as [[Ne ->]|(E0 & _ & _ & _ & gs & extra & C' & W' & X & (rest' & R') & _)].
  - exists flushed, new. eauto.
  - exists (flushed ++ gs),
      (new ++ commentChunks gs ++ map CommentLine extra
       ++ match err o' with Some _ => [] | None => [TextChunk s] end).
    assert (Hc : commentsOf
                   (new ++ commentChunks gs ++ map CommentLine extra
                    ++ match err o' with
                       | Some _ => []
                       | None => [TextChunk s]
                       end)
                 = commentTexts flushed ++ commentTexts gs ++ extra).
    { rewrite !commentsOf_app, commentsOf_commentChunks,
        commentsOf_CommentLine, (N E0).
      destruct (err o'); cbn; now rewrite app_nil_r. }
    repeat split.
    + now rewrite C, C', app_assoc.
    + now rewrite W', W, <- app_assoc.
    + exists rest'. rewrite Hc, C, C', !commentTexts_app, R'.
      now rewrite <- !app_assoc.
    + intros N'. rewrite Hc, (X N'), app_nil_r, commentTexts_app.
      reflexivity.
Qed.

Lemma flushedPrefix_setLastNode cs w0 a :
  preserves (flushedPrefix cs w0) (setLastNode a).
Proof.
  intros o [] o' Io E. inversion E; subst. exact Io.
Qed.

Lemma Pos_CommentGroup g :
  ast.CommentList g <> [] -> ast.Pos g = inr (groupPos g).
Proof.
  unfold ast.Pos, ast.CommentGroup_Node, ast.CommentGroup_Pos, groupPos.
  destruct (ast.CommentList g); [congruence | reflexivity].
Qed.

Lemma flushComments_total {A} `{ast.Node A} (n : A) np cs :
  ast.Pos n = inr np -> nonEmptyGroups cs ->
  forall w, exists r, flushComments n cs w = inr r.
Proof.
  intros Pn. induction cs as [|g rest IH]; intros NE w; cbn [flushComments].
  - eauto.
  - inversion NE as [|? ? Hg Hrest]; subst.
    rewrite Pn, (Pos_CommentGroup g Hg).
    destruct (np >? groupPos g); [|eauto].
    destruct (writeComments (ast.CommentList g) w) as [w' [e|]]; eauto.
Qed.

Lemma filter_startsBefore_none np cs :
  Forall (fun g => np <= groupPos g) cs ->
  filter (startsBefore np) cs = []
  /\ filter (fun g => negb (startsBefore np g)) cs = cs.
Proof.
  induction 1 as [|g r Hg Hr [IH1 IH2]]; cbn [filter]; [auto|].
  assert (startsBefore np g = false) as ->
    by (unfold startsBefore; apply Z.ltb_ge; exact Hg).
  cbn [negb]. now rewrite IH1, IH2.
Qed.

Lemma flushComments_sourceOrder {A} `{ast.Node A} (n : A) np cs :
  ast.Pos n = inr np -> nonEmptyGroups cs -> sourceOrder cs ->
  forall w w' cs',
    flushComments n cs w = inr (w', cs', None) ->
    written w' = written w ++ commentChunks (filter (startsBefore np) cs)
    /\ cs' = filter (fun g => negb (startsBefore np g)) cs.
Proof.
  intros Pn. induction cs as [|g rest IH]; intros NE SO w w' cs' E;
    cbn [flushComments] in E.
  - inversion E; subst. cbn. now rewrite app_nil_r.
  - inversion NE as [|? ? Hg Hrest]; subst. destruct SO as [Hle SO].
    rewrite Pn, (Pos_CommentGroup g Hg) in E.
    destruct (Z.gtb_spec np (groupPos g)) as [Hlt|Hge].
    + destruct (writeComments (ast.CommentList g) w) as [w1 [e1|]] eqn:Wc;
        [discriminate|].
      destruct (writeComments_spec _ _ _ _ Wc) as (l1 & l2 & L & W & N).
      rewrite (N eq_refl), app_nil_r in L. subst l1.
      destruct (IH Hrest SO _ _ _ E) as [W' C'].
      cbn [filter].
      assert (startsBefore np g = true) as ->
        by (unfold startsBefore; apply Z.ltb_lt; lia).
      cbn [negb]. split; [|exact C'].
      rewrite W', W. unfold commentChunks. cbn [commentTexts flat_map].
      now rewrite map_app, <- app_assoc.
    + inversion E; subst.
      assert (F : Forall (fun g' => np <= groupPos g') (g :: rest)).
      { constructor; [lia|].
        eapply Forall_impl; [|exact Hle]. cbn. intros; lia. }
      destruct (filter_startsBefore_none np _ F) as [-> ->].
      cbn. now rewrite app_nil_r.
Qed.

Lemma render_commentChunks gs :
  render (commentChunks gs)
  = fold_right (fun t acc => t +++ nl +++ acc) "" (commentTexts gs).
Proof.
  unfold commentChunks. induction (commentTexts gs) as [|t r IH]; cbn.
  - reflexivity.
  - unfold render in IH. now rewrite IH, append_assoc.
Qed.

(** C1: when [Writef] is called with a node at position [np] on a sink
    whose buffered comment groups are in source order, the call that
    writes the node's text first writes, in that order, the lines of every
    buffered group that starts before [np], each line as it is followed by
    a newline, and keeps exactly the other groups; the call always
    returns.  Over a whole run of [Transpile] the buffer only loses groups
    from its front, and the comment lines written are a prefix of the
    lines of the file's comment list, so no group is flushed twice and the
    lines come out in the order of their source positions. *)
Theorem Writef_flushes_comments_in_order :
  (forall A (H : ast.Node A) (n : A) np s o,
      ast.Pos n = inr np -> nonEmptyGroups (c o) ->
      (exists o', Writef n s o = Ret tt o')
      /\ (forall o',
             Writef n s o = Ret tt o' -> err o' = None ->
             sourceOrder (c o) ->
             written (out o')
             = written (out o)
               ++ commentChunks (filter (startsBefore np) (c o))
               ++ [TextChunk s]
             /\ c o' = filter (fun g => negb (startsBefore np g)) (c o)))
  /\ (forall gs,
         render (commentChunks gs)
         = fold_right (fun t acc => t +++ nl +++ acc) "" (commentTexts gs))
  /\ (forall w src f r o',
         Transpile w src f = Ret r o' ->
         flushedPrefix (ast.Comments f) (written w) o').
Proof.
  split; [|split].
  - intros A H n np s o Pn NE. split.
    + unfold Writef. destruct (err o); [eauto|].
      destruct (flushComments_total n np (c o) Pn NE (out o))
        as [[[w cs'] e] F].
      rewrite F. destruct e; [eauto|].
      destruct (Fprintf w (TextChunk s)). eauto.
    + intros o' E N SO. unfold Writef in E.
      destruct (err o) eqn:E0; [inversion E; subst; congruence|].
      destruct (flushComments n (c o) (out o)) as [p|[[w cs'] e]] eqn:F;
        [discriminate|].
      destruct e as [e|]; [inversion E; subst; discriminate|].
      destruct (Fprintf w (TextChunk s)) as [w' e'] eqn:Fp.
      inversion E; subst; clear E. cbn in *. subst e'.
      destruct (flushComments_sourceOrder n np _ Pn NE SO _ _ _ F) as [W C].
      destruct (Fprintf_spec _ _ _ _ Fp) as [[_ W']|[? _]]; [|discriminate].
      split; [|exact C]. rewrite W', W. now rewrite <- app_assoc.
  - apply render_commentChunks.
  - intros w src f r o' E. unfold Transpile in E.
    revert E. apply preserves_bind.
    + apply preserves_writeImports. apply flushedPrefix_Writef.
    + intros _. apply preserves_handleDecls.
      * apply flushedPrefix_Writef.
      * apply flushedPrefix_setLastNode.
    + exists [], []. cbn. rewrite app_nil_r. repeat split; eauto.
Qed.

Lemma Writef_flushes_comments_in_order_witness :
  (written (out oneCommentSink)
   = written (out twoCommentSink)
     ++ commentChunks (filter (startsBefore 18) (c twoCommentSink))
     ++ [TextChunk "int"]
   /\ c oneCommentSink
      = filter (fun g => negb (startsBefore 18 g)) (c twoCommentSink))
  /\ flushedPrefix (ast.Comments commentedFile) (written Buffer)
       commentedFileSink.
Proof.
  split.
  - refine (proj2 (proj1 Writef_flushes_comments_in_order
                     ast.ValueSpec _ twoNames 18 "int" twoCommentSink _ _)
              oneCommentSink _ _ _).
    + reflexivity.
    + repeat constructor; discriminate.
    + reflexivity.
    + reflexivity.
    + cbn. repeat constructor; cbn; lia.
  - refine (proj2 (proj2 Writef_flushes_comments_in_order)
              Buffer "" commentedFile None commentedFileSink _).
    vm_compute. reflexivity.
Defined.

(** ** The button sketch *)

(** The [loop] function of the button sketch is printed as in
    [button.ino]. *)
Example handleFuncDecl_button_loop :
  exists o',
    handleFuncDecl buttonLoop bufferSink = Ret None o'
    /\ render (written (out o'))
       = "void loop() {" +++ nl
         +++ "  buttonState = digitalRead(buttonPin);" +++ nl
         +++ "  if (buttonState==HIGH) {" +++ nl
         +++ "  digitalWrite(ledPin, HIGH);" +++ nl
         +++ "} else {" +++ nl
         +++ "  digitalWrite(ledPin, LOW);" +++ nl
         +++ "}" +++ nl
         +++ "}" +++ nl.
Proof. eexists. split; [vm_compute; reflexivity | reflexivity]. Qed.

(* ------------------------------------------------------------------ *)
(** * Further properties *)

(** ** Line numbers *)

Lemma newlines_In s :
  forall i x,
    In x (newlines i s)
    <-> exists k, x = i + Z.of_nat k /\ String.get k s = Some "010"%char.
Proof.
  induction s as [|ch r IH]; intros i x; cbn [newlines].
  - split; [intros [] | intros (k & _ & G); destruct k; discriminate].
  - assert (Hr : In x (newlines (i + 1) r)
                 <-> exists k, x = i + Z.of_nat (S k)
                               /\ String.get k r = Some "010"%char).
    { rewrite IH. split; intros (k & -> & G); exists k; split; auto; lia. }
    destruct (Ascii.eqb_spec ch "010"%char) as [->|Hne].
    + cbn [In]. rewrite Hr. split.
      * intros [<-|(k & -> & G)].
        -- exists 0%nat. split; [lia | reflexivity].
        -- exists (S k). auto.
      * intros ([|k] & -> & G).
        -- left. lia.
        -- right. exists k. auto.
    + rewrite Hr. split.
      * intros (k & -> & G). exists (S k). auto.
      * intros ([|k] & -> & G).
        -- cbn in G. congruence.
        -- exists k. auto.
Qed.

Lemma newlines_ascending s : forall i, StronglySorted Z.lt (newlines i s).
Proof.
  induction s as [|ch r IH]; intros i; cbn [newlines]; [constructor|].
  destruct (Ascii.eqb ch "010"%char); [|apply IH].
  constructor; [apply IH|].
  apply Forall_forall. intros x Hx.
  apply newlines_In in Hx. destruct Hx as (k & -> & _). lia.
Qed.

Lemma filter_leb_none p r :
  Forall (fun y => p < y) r -> filter (fun y => Z.leb y p) r = [].
Proof.
  induction 1 as [|y r Hy Hr IH]; cbn [filter]; [reflexivity|].
  destruct (Z.leb_spec y p); [lia | exact IH].
Qed.

Lemma findLine_from_ascending ls :
  StronglySorted Z.lt ls ->
  forall p l,
    findLine_from ls p l
    = l + Z.of_nat (List.length (filter (fun x => Z.leb x p) ls)).
Proof.
  induction 1 as [|x r Hs IH Hall]; intros p l; cbn [findLine_from filter].
  - cbn. lia.
  - rewrite Z.geb_leb. destruct (Z.leb_spec x p) as [Hle|Hgt].
    + rewrite IH. cbn [List.length]. lia.
    + rewrite filter_leb_none; [cbn; lia|].
      eapply Forall_impl; [|exact Hall]. cbn. intros; lia.
Qed.

(** X1: on a sink whose newline table is the one [Transpile] builds from
    the input, [findLine] returns one plus the number of newline
    characters of the input at an offset not above the position; the
    table holds exactly the offsets of the newline characters. *)
Theorem findLine_counts_newlines o p :
  lines o = newlines 0 (content o) ->
  findLine o p = 1 + Z.of_nat (List.length (newlinesUpTo (content o) p))
  /\ (forall x,
         In x (lines o)
         <-> 0 <= x
             /\ String.get (Z.to_nat x) (content o) = Some "010"%char).
Proof.
  intros Hl. split.
  - unfold findLine, newlinesUpTo. rewrite Hl.
    rewrite (findLine_from_ascending _ (newlines_ascending _ 0)). lia.
  - intros x. rewrite Hl, newlines_In. split.
    + intros (k & -> & G). rewrite Z.add_0_l, Nat2Z.id. split; [lia | exact G].
    + intros [Hx G]. exists (Z.to_nat x). split; [lia | exact G].
Qed.

Lemma findLine_counts_newlines_witness :
  findLine twoLineSink 4
  = 1 + Z.of_nat (List.length (newlinesUpTo (content twoLineSink) 4))
  /\ (forall x,
         In x (lines twoLineSink)
         <-> 0 <= x
             /\ String.get (Z.to_nat x) (content twoLineSink)
                = Some "010"%char).
Proof.
  refine (findLine_counts_newlines twoLineSink 4 _). reflexivity.
Defined.

(** ** After a write error *)

Lemma latched_Writef o0 A (H : ast.Node A) (n : A) s :
  preserves (fun o => err o <> None /\ out o = out o0 /\ c o = c o0
                      /\ err o = err o0)
    (Writef n s).
Proof.
  intros o [] o' (Ne & Ho & Hc & He) E.
  rewrite (Writef_failed n s o Ne) in E. inversion E; subst. auto.
Qed.

Lemma latched_setLastNode o0 a :
  preserves (fun o => err o <> None /\ out o = out o0 /\ c o = c o0
                      /\ err o = err o0)
    (setLastNode a).
Proof. intros o [] o' Io E. inversion E; subst. exact Io. Qed.

(** X2: once the sink has recorded an error, no handler writes anything
    any more: an expression, a statement and a declaration handled on such
    a sink leave the writer, the buffered comments and the recorded error
    as they are. *)
Theorem nothing_written_after_error o :
  err o <> None ->
  (forall e r o',
      handleExpr e o = Ret r o' ->
      out o' = out o /\ c o' = c o /\ err o' = err o)
  /\ (forall s r o',
         handleStmt s o = Ret r o' ->
         out o' = out o /\ c o' = c o /\ err o' = err o)
  /\ (forall d r o',
         handleDecl d o = Ret r o' ->
         out o' = out o /\ c o' = c o /\ err o' = err o).
Proof.
  intros Ne.
  assert (I0 : err o <> None /\ out o = out o /\ c o = c o /\ err o = err o)
    by auto.
  split; [|split].
  - intros e r o' E.
    exact (proj2 (preserves_handleExpr _ (latched_Writef o)
                    (latched_setLastNode o) e o r o' I0 E)).
  - intros s r o' E.
    exact (proj2 (preserves_handleStmt _ (latched_Writef o)
                    (latched_setLastNode o) s o r o' I0 E)).
  - intros d r o' E.
    exact (proj2 (preserves_handleDecl _ (latched_Writef o)
                    (latched_setLastNode o) d o r o' I0 E)).
Qed.

Lemma nothing_written_after_error_witness :
  out (withLastNode (Some (ident 201 "HIGH")) failedSink) = out failedSink
  /\ c (withLastNode (Some (ident 201 "HIGH")) failedSink) = c failedSink
  /\ err (withLastNode (Some (ident 201 "HIGH")) failedSink)
     = err failedSink.
Proof.
  refine (proj1 (proj2 (nothing_written_after_error failedSink _))
            writeHigh None
            (withLastNode (Some (ident 201 "HIGH")) failedSink) _).
  - discriminate.
  - reflexivity.
Defined.

Lemma handleDecls_None l :
  forall o o', handleDecls l o = Ret None o' -> err o' = None.
Proof.
  induction l as [|d r IH]; intros o o' E; cbn [handleDecls] in E.
  - inversion E; subst. congruence.
  - unfold returnIfErr, bind in E.
    destruct (handleDecl d o) as [[e|] o1|p]; try discriminate.
    destruct (err o1) eqn:E1; [discriminate|].
    exact (IH _ _ E).
Qed.

(** X3: [Transpile] never swallows a write error: when it returns no
    error, the sink has recorded none. *)
Theorem Transpile_reports_write_error w src f o' :
  Transpile w src f = Ret None o' -> err o' = None.
Proof.
  unfold Transpile, bind. intros E.
  match type of E with
  | match writeImports ?l ?o with _ => _ end = _ =>
      destruct (writeImports l o) as [[] o1|p]; [|discriminate]
  end.
  exact (handleDecls_None _ _ _ E).
Qed.

Lemma Transpile_reports_write_error_witness : err commentedFileSink = None.
Proof.
  refine (Transpile_reports_write_error Buffer "" commentedFile
            commentedFileSink _).
  vm_compute. reflexivity.
Defined.

(** ** Fail-fast sequencing *)

Lemma handleBlockStmt_app p l1 l2 :
  forall o,
    handleBlockStmt (ast.Block p (l1 ++ l2)) o
    = returnIfErr (handleBlockStmt (ast.Block p l1))
        (handleBlockStmt (ast.Block p l2)) o.
Proof.
  induction l1 as [|s r IH]; intros o.
  - reflexivity.
  - specialize (IH) as IH'. cbn [handleBlockStmt app] in *.
    unfold returnIfErr, bind in *.
    destruct (handleStmt s o) as [[e|] o1|pn]; try reflexivity.
    apply IH'.
Qed.

(** X4: a block is handled statement by statement and stops at the first
    statement that returns an error: a block [l1 ++ l2] is [l1] followed,
    if [l1] returned no error, by [l2]; and when [l1] went through and the
    next statement fails, the statements after it are not handled. *)
Theorem handleBlockStmt_fail_fast p l1 s l2 o o1 e o2 :
  handleBlockStmt (ast.Block p l1) o = Ret None o1 ->
  handleStmt s o1 = Ret (Some e) o2 ->
  handleBlockStmt (ast.Block p (l1 ++ s :: l2)) o = Ret (Some e) o2
  /\ (forall l o0,
         handleBlockStmt (ast.Block p (l1 ++ l)) o0
         = returnIfErr (handleBlockStmt (ast.Block p l1))
             (handleBlockStmt (ast.Block p l)) o0).
Proof.
  intros E1 E2. split.
  - rewrite handleBlockStmt_app, (returnIfErr_None _ _ _ _ E1).
    cbn [handleBlockStmt]. now rewrite (returnIfErr_Some _ _ _ _ _ E2).
  - intros l o0. apply handleBlockStmt_app.
Qed.

Lemma handleBlockStmt_fail_fast_witness :
  handleBlockStmt
    (ast.Block 40 ([writeHigh] ++ ast.OtherStmt 210 :: [writeHigh]))
    bufferSink
  = Ret (Some (errorLine 1 "unsupported statement"))
      (withLastNode (Some (ident 201 "HIGH"))
         (emit bufferSink
            [TextChunk "  "; TextChunk "digitalWrite(ledPin, HIGH)";
             TextChunk (";" +++ nl); TextChunk "  "])).
Proof.
  refine (proj1 (handleBlockStmt_fail_fast 40 [writeHigh]
                   (ast.OtherStmt 210) [writeHigh] bufferSink
                   (withLastNode (Some (ident 201 "HIGH"))
                      (emit bufferSink
                         [TextChunk "  ";
                          TextChunk "digitalWrite(ledPin, HIGH)";
                          TextChunk (";" +++ nl)]))
                   _ _ _ _)).
  - reflexivity.
  - reflexivity.
Defined.

Lemma handleDecls_app_error l1 l2 :
  forall o e o1,
    l1 <> [] \/ err o = None ->
    handleDecls l1 o = Ret (Some e) o1 ->
    handleDecls (l1 ++ l2) o = Ret (Some e) o1.
Proof.
  induction l1 as [|d r IH]; intros o e o1 H E.
  - destruct H as [H|H]; [congruence|].
    cbn [handleDecls] in E. inversion E; subst. congruence.
  - cbn [handleDecls app] in *. unfold returnIfErr, bind in *.
    destruct (handleDecl d o) as [[e'|] o'|pn]; try discriminate; auto.
    destruct (err o') eqn:E'; [exact E|].
    apply IH; auto.
Qed.

(** X5: [Transpile] stops at the first declaration that fails: when the
    translation of the declarations [l1] returns an error, the translation
    of [l1] followed by further declarations returns the same error and
    leaves the same sink. *)
Theorem Transpile_fail_fast w src imports l1 l2 cs e o1 :
  l1 <> [] ->
  Transpile w src
    {| ast.Imports := imports; ast.Decls := l1; ast.Comments := cs |}
  = Ret (Some e) o1 ->
  Transpile w src
    {| ast.Imports := imports; ast.Decls := l1 ++ l2; ast.Comments := cs |}
  = Ret (Some e) o1.
Proof.
  unfold Transpile, bind. cbn [ast.Imports ast.Decls ast.Comments].
  intros Hne E.
  match type of E with
  | match writeImports ?l ?o with _ => _ end = _ =>
      destruct (writeImports l o) as [[] o0|p]; [|discriminate]
  end.
  apply handleDecls_app_error; auto.
Qed.

Lemma Transpile_fail_fast_witness :
  Transpile Buffer ""
    {| ast.Imports := [];
       ast.Decls := [ast.OtherDecl 14] ++ [ast.FuncDeclD buttonLoop];
       ast.Comments := [] |}
  = Ret (Some (errorLine 1 "unsupported decl")) bufferSink.
Proof.
  refine (Transpile_fail_fast Buffer "" [] [ast.OtherDecl 14]
            [ast.FuncDeclD buttonLoop] []
            (errorLine 1 "unsupported decl") bufferSink _ _).
  - discriminate.
  - reflexivity.
Defined.

(** ** Literal kinds of a value spec *)

(** X6: a value spec whose single initializer is a literal of a kind other
    than [INT] and [STRING] (a float, a character, an imaginary number) is
    rejected with the error "unsupported literal kind" at the line of its
    first name, and nothing is written. *)
Theorem handleValueSpec_unsupported_kind vs name names ob vp kind value o :
  ast.Names vs = name :: names ->
  ast.Obj name = Some ob ->
  ast.Values vs = [ast.BasicLit vp kind value] ->
  kind <> token.INT -> kind <> token.STRING ->
  handleValueSpec vs o
  = Ret (Some (errorLine (findLine o (ast.NamePos name))
                 ("unsupported literal kind: " +++ token.String kind))) o.
Proof.
  intros Hn Ho Hv Hi Hs. unfold handleValueSpec, guessType, isValueConst.
  rewrite Hn, Hv, Ho. cbn [List.length Nat.eqb].
  assert (tokenStr kind (ast.ObjKind_eqb (ast.Kind ob) ast.Con) = "") as ->
    by (destruct kind; try reflexivity; congruence).
  cbn [String.length Nat.eqb].
  unfold Errorf, ast.Pos, ast.ValueSpec_Node, ast.ValueSpec_Pos.
  now rewrite Hn.
Qed.

Lemma handleValueSpec_unsupported_kind_witness :
  handleValueSpec floatVar bufferSink
  = Ret (Some (errorLine 1 "unsupported literal kind: FLOAT")) bufferSink.
Proof.
  refine (handleValueSpec_unsupported_kind floatVar (varName 18 "x") []
            {| ast.Kind := ast.Var |} 22 token.FLOAT "1.5" bufferSink
            _ _ _ _ _); try reflexivity; discriminate.
Defined.

(** ** Groups a call of [Writef] never flushes *)

Lemma Pos_CommentGroup_inr g gp : ast.Pos g = inr gp -> gp = groupPos g.
Proof.
  unfold ast.Pos, ast.CommentGroup_Node, ast.CommentGroup_Pos, groupPos.
  destruct (ast.CommentList g); intros E; inversion E; reflexivity.
Qed.

Lemma flushComments_earlier {A} `{ast.Node A} (n : A) np cs :
  ast.Pos n = inr np ->
  forall w w' cs' e,
    flushComments n cs w = inr (w', cs', e) ->
    exists gs,
      cs = gs ++ cs'
      /\ Forall (fun g => startsBefore np g = true) gs
      /\ (e = None ->
          match cs' with
          | [] => True
          | g :: _ => startsBefore np g = false
          end).
Proof.
  intros Pn. induction cs as [|g rest IH]; intros w w' cs' e E;
    cbn [flushComments] in E.
  - inversion E; subst. exists []. auto.
  - rewrite Pn in E. destruct (ast.Pos g) as [p|gp] eqn:Pg; [discriminate|].
    apply Pos_CommentGroup_inr in Pg. subst gp.
    destruct (Z.gtb_spec np (groupPos g)) as [Hlt|Hge].
    + destruct (writeComments (ast.CommentList g) w) as [w1 [e1|]].
      * inversion E; subst. exists []. repeat split; auto; discriminate.
      * destruct (IH _ _ _ _ E) as (gs & -> & F & S).
        exists (g :: gs). repeat split; auto.
        constructor; [|exact F]. unfold startsBefore. apply Z.ltb_lt. lia.
    + inversion E; subst. exists []. repeat split; auto.
      intros _. unfold startsBefore. apply Z.ltb_ge. lia.
Qed.

(** X7: whatever the order of the buffered comment groups, a call of
    [Writef] only drops groups from the front of the buffer, every group it
    drops starts before the node, and after a call that wrote the node's
    text the first group left does not start before the node; so a group
    that starts at or after the position of every node written is never
    flushed. *)
Theorem Writef_flushes_only_earlier_groups
  {A} `{ast.Node A} (n : A) np s o o' :
  ast.Pos n = inr np ->
  Writef n s o = Ret tt o' ->
  exists gs,
    c o = gs ++ c o'
    /\ Forall (fun g => startsBefore np g = true) gs
    /\ (err o = None -> err o' = None ->
        match c o' with
        | [] => True
        | g :: _ => startsBefore np g = false
        end).
Proof.
  intros Pn E. unfold Writef in E. destruct (err o) eqn:E0.
  - inversion E; subst. exists []. repeat split; auto; discriminate.
  - destruct (flushComments n (c o) (out o)) as [p|[[w cs'] e]] eqn:F;
      [discriminate|].
    destruct (flushComments_earlier n np _ Pn _ _ _ _ F) as (gs & C & Fa & S).
    exists gs. destruct e as [e|].
    + inversion E; subst. cbn. repeat split; auto; discriminate.
    + destruct (Fprintf w (TextChunk s)) as [w' e'].
      inversion E; subst. cbn. split; [exact C|]. split; [exact Fa|].
      intros _ _. exact (S eq_refl).
Qed.

Lemma Writef_flushes_only_earlier_groups_witness :
  exists gs,
    c twoCommentSink = gs ++ c oneCommentSink
    /\ Forall (fun g => startsBefore 18 g = true) gs
    /\ (err twoCommentSink = None -> err oneCommentSink = None ->
        match c oneCommentSink with
        | [] => True
        | g :: _ => startsBefore 18 g = false
        end).
Proof.
  refine (Writef_flushes_only_earlier_groups twoNames 18 "int"
            twoCommentSink oneCommentSink _ _); reflexivity.
Defined.

(** ** The expression printer *)

Lemma render_one s : render [TextChunk s] = s.
Proof. cbn. apply append_nil_r. Qed.

Lemma allSome_map_ext {A B} (f g : A -> option B) l :
  Forall (fun a => f a = g a) l -> allSome (map f l) = allSome (map g l).
Proof.
  induction 1 as [|a r Ha Hr IH]; cbn [map allSome]; [reflexivity|].
  now rewrite Ha, IH.
Qed.

Lemma exprChunks_text e : option_map render (exprChunks e) = exprText e.
Proof.
  induction e using Expr_nested_ind; cbn [exprChunks exprText];
    try reflexivity.
  - cbn [option_map]. now rewrite render_one.
  - rewrite <- IHe1, <- IHe2.
    destruct (exprChunks e1) as [a|]; [|reflexivity].
    destruct (exprChunks e2) as [b|]; [|reflexivity].
    cbn [option_map]. now rewrite render_app.
  - match goal with F : Forall _ _ |- _ => rename F into HF end.
    rewrite <- (allSome_map_ext _ _ _ HF).
    destruct (allSome (map (fun a => option_map render (exprChunks a)) args));
      [|reflexivity].
    destruct (typeName e); [|reflexivity].
    cbn [option_map]. now rewrite render_one.
  - cbn [option_map]. now rewrite render_one.
  - rewrite <- IHe. destruct (exprChunks e) as [a|]; [|reflexivity].
    cbn [option_map]. rewrite render_app. cbn. now rewrite append_nil_r.
  - rewrite <- IHe. now destruct (exprChunks e).
  - rewrite <- IHe. now destruct (exprChunks e).
Qed.

(** X8: on a plain sink, [handleExpr] is a printer: for an expression of
    the subset it returns no error, leaves a plain sink and appends the
    text of the expression to the output; for every other expression it
    returns an error. *)
Theorem handleExpr_prints_text e o :
  plain o ->
  match exprText e with
  | Some t =>
      exists o',
        handleExpr e o = Ret None o'
        /\ plain o'
        /\ render (written (out o')) = render (written (out o)) +++ t
  | None => exists e' o', handleExpr e o = Ret (Some e') o'
  end.
Proof.
  intros P. pose proof (handleExpr_spec e) as Hs.
  rewrite <- exprChunks_text. destruct (exprChunks e) as [ch|]; cbn [option_map].
  - destruct (Hs o P) as (o' & E & Em). exists o'.
    split; [exact E|]. split; [exact (emits_plain _ _ _ Em P)|].
    now rewrite (emits_written _ _ _ Em), render_app.
  - exact (Hs o P).
Qed.

Lemma handleExpr_prints_text_witness :
  exists o',
    handleExpr
      (call 180 "digitalWrite" [ident 193 "ledPin"; fadeSum]) bufferSink
    = Ret None o'
    /\ plain o'
    /\ render (written (out o'))
       = render (written (out bufferSink))
         +++ "digitalWrite(ledPin, brightness+fadeAmount)".
Proof.
  refine (handleExpr_prints_text
            (call 180 "digitalWrite" [ident 193 "ledPin"; fadeSum])
            bufferSink _).
  repeat split.
Defined.

(** X9: on every sink, pending comments and recorded errors included, a
    call of the subset is handled as one [Writef] at the position of the
    call, with the text of the whole call: its arguments are printed into
    a buffer of their own and flush no comment. *)
Theorem handleCallExpr_is_one_write fn lparen args t o :
  exprText (ast.CallExpr fn lparen args) = Some t ->
  exists ln,
    handleExpr (ast.CallExpr fn lparen args) o
    = (Writef (ast.CallExpr fn lparen args) t ;; ret None)
        (withLastNode ln o).
Proof.
  intros Et. rewrite <- exprChunks_text in Et. cbn [exprChunks] in Et.
  assert (HF : Forall (fun a => match exprChunks a with
                                | Some ch => prints (handleExpr a) ch
                                | None => fails (handleExpr a)
                                end) args)
    by (apply Forall_forall; intros a _; apply handleExpr_spec).
  pose proof (callArgs_spec _ HF) as HA.
  pose proof (exprTypeToType_typeName fn) as HT.
  destruct (allSome (map (fun a => option_map render (exprChunks a)) args))
    as [texts|]; [|discriminate].
  destruct (typeName fn) as [ident|]; [|discriminate].
  cbn [option_map] in Et. rewrite render_one in Et.
  inversion Et; subst t; clear Et.
  cbn [handleExpr]. unfold handleCallExpr.
  match goal with
  | |- context [callArgs handleExpr args ?tmp []] =>
      destruct (HA tmp [] o ltac:(repeat split)) as (ln & E)
  end.
  exists ln. rewrite (bind_Ret _ _ _ _ _ E). cbn [app].
  destruct (HT (withLastNode ln o)) as (extra & ET).
  now rewrite (bind_Ret _ _ _ _ _ ET).
Qed.

Lemma handleCallExpr_is_one_write_witness :
  exists ln,
    handleExpr (ast.CallExpr (ident 20 "delay") 25 [intLit 26 "30"])
      twoCommentSink
    = (Writef (ast.CallExpr (ident 20 "delay") 25 [intLit 26 "30"])
         "delay(30)" ;; ret None)
        (withLastNode ln twoCommentSink).
Proof.
  refine (handleCallExpr_is_one_write (ident 20 "delay") 25
            [intLit 26 "30"] "delay(30)" twoCommentSink _).
  reflexivity.
Defined.

(** ** The type mapper as a function *)

Lemma exprTypeToType_flag n :
  forall o s,
    typeName n = Some s ->
    exprTypeToType n o = Ret (s, variadicFlag n, None) o.
Proof.
  induction n; intros o s Ht; cbn [typeName] in Ht; try discriminate;
    cbn [exprTypeToType variadicFlag].
  - inversion Ht; subst. reflexivity.
  - destruct (typeName n) as [x'|] eqn:Tn; [|discriminate].
    inversion Ht; subst.
    rewrite (bind_Ret _ _ _ _ _ (IHn o x' eq_refl)). reflexivity.
  - destruct (typeName n) as [x'|] eqn:Tn; [|discriminate].
    inversion Ht; subst.
    rewrite (bind_Ret _ _ _ _ _ (IHn o x' eq_refl)). reflexivity.
  - destruct (typeName n) as [x'|] eqn:Tn; [|discriminate].
    inversion Ht; subst.
    rewrite (bind_Ret _ _ _ _ _ (IHn o x' eq_refl)). reflexivity.
  - rewrite (bind_Ret _ _ _ _ _ (IHn o s Ht)). reflexivity.
  - inversion Ht; subst. reflexivity.
Qed.

(** X10: the type mapper never panics and never touches the sink.  A type
    built from identifiers, the interface type, member accesses, pointers,
    arrays and variadic markers gets its spelling and its variadic flag
    whatever the sink; a member access drops the flag of its base.  Every
    other type expression (a function type among them) gets an error. *)
Theorem exprTypeToType_is_a_function n o :
  (forall s,
      typeName n = Some s ->
      exprTypeToType n o = Ret (s, variadicFlag n, None) o)
  /\ (typeName n = None ->
      exists s extra e, exprTypeToType n o = Ret (s, extra, Some e) o)
  /\ (forall sel, variadicFlag (ast.SelectorExpr n sel) = false).
Proof.
  split; [|split].
  - intros s Ht. now apply exprTypeToType_flag.
  - intros Ht. pose proof (exprTypeToType_typeName n o) as H.
    now rewrite Ht in H.
  - reflexivity.
Qed.

Lemma exprTypeToType_is_a_function_witness :
  exprTypeToType
    (ast.ArrayType 10 (ast.StarExpr 12
       (ast.SelectorExpr (ident 13 "servo") 
          {| ast.NamePos := 19; ast.Name := "Motor"; ast.Obj := None |})))
    twoCommentSink
  = Ret ("**servo.Motor", false, None) twoCommentSink
  /\ exists s extra e,
      exprTypeToType (ast.StarExpr 10 (ast.FuncType 11)) twoCommentSink
      = Ret (s, extra, Some e) twoCommentSink.
Proof.
  split.
  - refine (proj1 (exprTypeToType_is_a_function _ twoCommentSink)
              "**servo.Motor" _). reflexivity.
  - refine (proj1 (proj2 (exprTypeToType_is_a_function
                            (ast.StarExpr 10 (ast.FuncType 11))
                            twoCommentSink)) _). reflexivity.
Defined.

(** ** Parameter types *)

Lemma argumentTypes_typed fields :
  forall types o,
    Forall typedField fields ->
    argumentTypes fields types o = Ret (types ++ fieldTypes fields, None) o.
Proof.
  induction fields as [|arg r IH]; intros types o F;
    cbn [argumentTypes fieldTypes flat_map].
  - now rewrite app_nil_r.
  - inversion F as [|? ? [Ht Hf] Hr]; subst.
    destruct (typeName (ast.FieldType arg)) as [t|] eqn:Tn; [|congruence].
    rewrite (bind_Ret _ _ _ _ _ (exprTypeToType_flag _ o t Tn)), Hf.
    cbv zeta. rewrite (IH _ o Hr). unfold fieldTypes.
    rewrite <- app_assoc.
    now destruct (List.length (ast.FieldNames arg)).
Qed.

(** X11: for parameters whose types have a spelling and no variadic
    marker, [extractArgumentsType] returns no error and lists one type
    per bound name and one for a parameter without name, in order.  A
    single receiver with a pointer type comes first in that list, a single
    receiver of any other type is left out, and a receiver list that does
    not hold exactly one receiver is an error.  The sink is left as it
    is. *)
Theorem extractArgumentsType_types f o :
  let params := ast.FieldsList (ast.Params (ast.Type_ f)) in
  (ast.Recv f = None -> Forall typedField params ->
   extractArgumentsType f o = Ret (fieldTypes params, None) o)
  /\ (forall recv r0 star x,
         ast.Recv f = Some recv -> ast.FieldsList recv = [r0] ->
         ast.FieldType r0 = ast.StarExpr star x ->
         Forall typedField (r0 :: params) ->
         extractArgumentsType f o = Ret (fieldTypes (r0 :: params), None) o)
  /\ (forall recv r0,
         ast.Recv f = Some recv -> ast.FieldsList recv = [r0] ->
         (forall star x, ast.FieldType r0 <> ast.StarExpr star x) ->
         Forall typedField params ->
         extractArgumentsType f o = Ret (fieldTypes params, None) o)
  /\ (forall recv,
         ast.Recv f = Some recv ->
         List.length (ast.FieldsList recv) <> 1%nat ->
         extractArgumentsType f o
         = Ret ([], Some (errorLine (findLine o (ast.FieldList_Pos recv))
                            "expect only one receiver; please fix code")) o).
Proof.
  cbv zeta. unfold extractArgumentsType. repeat apply conj.
  - intros -> F. now rewrite argumentTypes_typed.
  - intros recv r0 star x -> -> -> F. now rewrite argumentTypes_typed.
  - intros recv r0 -> -> Hns F.
    destruct (ast.FieldType r0); try (now rewrite argumentTypes_typed).
    now destruct (Hns Star e).
  - intros recv -> Hlen.
    destruct (ast.FieldsList recv) as [|r0 [|r1 rs]]; try reflexivity.
    cbn in Hlen. congruence.
Qed.

Lemma extractArgumentsType_types_witness :
  extractArgumentsType moveFunc twoCommentSink
  = Ret (["*Servo"; "int"; "int"; "int8"], None) twoCommentSink.
Proof.
  refine (proj1 (proj2 (extractArgumentsType_types moveFunc twoCommentSink))
            {| ast.Opening := 19; ast.FieldsList := [servoRecv] |}
            servoRecv 22 (ident 23 "Servo") _ _ _ _); try reflexivity.
  repeat constructor; discriminate.
Defined.

(** ** Statements, blocks and functions on a plain sink *)

Lemma fails_Errorf_Pos {A} `{ast.Node A} (n : A) p msg :
  ast.Pos n = inr p -> fails (Errorf n msg).
Proof.
  intros Pn o P. unfold Errorf. rewrite Pn. eexists _, _. reflexivity.
Qed.

Lemma prints_ExprStmt x ch :
  exprChunks x = Some ch ->
  prints (handleStmt (ast.ExprStmt x))
    ([TextChunk "  "] ++ ch ++ [TextChunk (";" +++ nl)]).
Proof.
  intros Ex. cbn [handleStmt app]. apply prints_Writef.
  apply prints_check; [now apply handleExpr_supported|].
  apply prints_Writef, prints_ret.
Qed.

Lemma prints_Block_nil p : prints (handleBlockStmt (ast.Block p [])) [].
Proof. apply prints_ret. Qed.

Lemma prints_Block_cons p s r a b :
  prints (handleStmt s) a ->
  prints (handleBlockStmt (ast.Block p r)) b ->
  prints (handleBlockStmt (ast.Block p (s :: r))) (a ++ b).
Proof.
  intros Hs Hr. cbn [handleBlockStmt] in *. now apply prints_check.
Qed.

(** X12: on a plain sink, a conditional whose condition is in the subset
    and whose body prints [chb] prints the indentation, ["if ("], the
    condition, [") {"], the body and the closing brace; an alternative
    that is a block adds [" else {"], the block and a closing brace on the
    same line as the first one; an alternative that is another conditional
    (an else-if chain) is an error. *)
Theorem handleStmt_if_else p cond chc body chb :
  exprChunks cond = Some chc ->
  prints (handleBlockStmt body) chb ->
  prints (handleStmt (ast.IfStmt p cond body None))
    ([TextChunk "  "; TextChunk "if ("] ++ chc
     ++ [TextChunk (") {" +++ nl)] ++ chb
     ++ [TextChunk "}"; TextChunk nl])
  /\ (forall bs che,
         prints (handleBlockStmt bs) che ->
         prints (handleStmt (ast.IfStmt p cond body
                               (Some (ast.BlockStmtS bs))))
           ([TextChunk "  "; TextChunk "if ("] ++ chc
            ++ [TextChunk (") {" +++ nl)] ++ chb
            ++ [TextChunk "}"; TextChunk (" else {" +++ nl)] ++ che
            ++ [TextChunk "}"; TextChunk nl]))
  /\ (forall p' cond' body' els',
         fails (handleStmt (ast.IfStmt p cond body
                              (Some (ast.IfStmt p' cond' body' els'))))).
Proof.
  intros Ec Hb. split; [|split].
  - cbn [handleStmt app]. do 2 apply prints_Writef.
    apply prints_check; [now apply handleExpr_supported|].
    apply prints_Writef. apply prints_check; [exact Hb|].
    apply prints_Writef.
    change [TextChunk nl] with ([] ++ [TextChunk nl]).
    apply prints_check; [apply prints_ret|].
    apply prints_Writef, prints_ret.
  - intros bs che He. cbn [handleStmt app]. do 2 apply prints_Writef.
    apply prints_check; [now apply handleExpr_supported|].
    apply prints_Writef. apply prints_check; [exact Hb|].
    apply prints_Writef.
    replace (TextChunk (" else {" +++ nl)
               :: che ++ [TextChunk "}"; TextChunk nl])
      with ((TextChunk (" else {" +++ nl) :: che ++ [TextChunk "}"])
            ++ [TextChunk nl])
      by (cbn [app]; now rewrite <- app_assoc).
    apply prints_check.
    + apply prints_Writef. apply prints_check; [exact He|].
      apply prints_Writef, prints_ret.
    + apply prints_Writef, prints_ret.
  - intros p' cond' body' els'. cbn [handleStmt].
    do 2 apply fails_Writef.
    eapply fails_check_r; [now apply handleExpr_supported; eassumption|].
    apply fails_Writef. eapply fails_check_r; [exact Hb|].
    apply fails_Writef. apply fails_check_l.
    now apply (fails_Errorf_Pos _ p').
Qed.

Lemma handleStmt_if_else_witness :
  exists o',
    handleStmt
      (ast.IfStmt 153
         (ast.BinaryExpr (ident 156 "buttonState") 168 token.EQL
            (ident 171 "HIGH"))
         (ast.Block 176 [writeHigh])
         (Some (ast.BlockStmtS (ast.Block 214 [writeHigh]))))
      bufferSink
    = Ret None o'
    /\ emits bufferSink
         ([TextChunk "  "; TextChunk "if ("]
          ++ [TextChunk "buttonState"; TextChunk "=="; TextChunk "HIGH"]
          ++ [TextChunk (") {" +++ nl)]
          ++ [TextChunk "  "; TextChunk "digitalWrite(ledPin, HIGH)";
              TextChunk (";" +++ nl)]
          ++ [TextChunk "}"; TextChunk (" else {" +++ nl)]
          ++ [TextChunk "  "; TextChunk "digitalWrite(ledPin, HIGH)";
              TextChunk (";" +++ nl)]
          ++ [TextChunk "}"; TextChunk nl]) o'.
Proof.
  assert (Hb : forall p,
             prints (handleBlockStmt (ast.Block p [writeHigh]))
               [TextChunk "  "; TextChunk "digitalWrite(ledPin, HIGH)";
                TextChunk (";" +++ nl)]).
  { intros p.
    apply (prints_Block_cons p writeHigh []
             [TextChunk "  "; TextChunk "digitalWrite(ledPin, HIGH)";
              TextChunk (";" +++ nl)] []).
    - apply (prints_ExprStmt _ [TextChunk "digitalWrite(ledPin, HIGH)"]).
      reflexivity.
    - apply prints_Block_nil. }
  refine (proj1 (proj2 (handleStmt_if_else 153
                          (ast.BinaryExpr (ident 156 "buttonState") 168
                             token.EQL (ident 171 "HIGH"))
                          [TextChunk "buttonState"; TextChunk "==";
                           TextChunk "HIGH"]
                          (ast.Block 176 [writeHigh])
                          [TextChunk "  ";
                           TextChunk "digitalWrite(ledPin, HIGH)";
                           TextChunk (";" +++ nl)] _ _))
            (ast.Block 214 [writeHigh])
            [TextChunk "  "; TextChunk "digitalWrite(ledPin, HIGH)";
             TextChunk (";" +++ nl)] _ bufferSink _).
  - reflexivity.
  - apply Hb.
  - apply Hb.
  - repeat split.
Defined.

Lemma extractArgumentsType_noRecv f o :
  ast.Recv f = None ->
  Forall typedField (ast.FieldsList (ast.Params (ast.Type_ f))) ->
  extractArgumentsType f o
  = Ret (fieldTypes (ast.FieldsList (ast.Params (ast.Type_ f))), None) o.
Proof.
  intros Hr F. unfold extractArgumentsType. rewrite Hr.
  now rewrite argumentTypes_typed.
Qed.

Lemma handleFuncDecl_returnType fd rt o :
  returnType fd = Some rt ->
  match ast.Results (ast.Type_ fd) with
  | None => ret ("void", None)
  | Some results =>
      match ast.FieldsList results with
      | [f] =>
          t <- exprTypeToType (ast.FieldType f) ;;
          match t with
          | (s, _, e) => ret (s, e)
          end
      | _ => e <- Errorf fd "unsupported return type" ;; ret ("void", e)
      end
  end o = Ret (rt, None) o.
Proof.
  unfold returnType. destruct (ast.Results (ast.Type_ fd)) as [results|].
  - destruct (ast.FieldsList results) as [|f [|f' r]]; try discriminate.
    intros Ht. now rewrite (bind_Ret _ _ _ _ _ (exprTypeToType_flag _ o rt Ht)).
  - intros Ht. inversion Ht; subst. reflexivity.
Qed.

(** The signature line of a function declaration. *)
Lemma handleFuncDecl_signature fd rt o :
  returnType fd = Some rt ->
  ast.Recv fd = None ->
  Forall typedField (ast.FieldsList (ast.Params (ast.Type_ fd))) ->
  plain o ->
  handleFuncDecl fd o
  = match ast.Body fd with
    | None => throw ast.NilDereference
    | Some body =>
        check handleBlockStmt body ;; Writef body ("}" +++ nl) ;; ret None
    end
      (emit o [TextChunk
                 (rt +++ " " +++ ast.Name (ast.FuncName fd) +++ "("
                  +++ Join (fieldTypes
                              (ast.FieldsList (ast.Params (ast.Type_ fd))))
                        " "
                  +++ ") {" +++ nl)]).
Proof.
  intros Hrt Hr F P. unfold handleFuncDecl.
  rewrite (bind_Ret _ _ _ _ _ (handleFuncDecl_returnType fd rt o Hrt)).
  rewrite (bind_Ret _ _ _ _ _ (extractArgumentsType_noRecv fd o Hr F)).
  now rewrite Writef_plain_bind.
Qed.

(** X13: on a plain sink, a function without receiver whose result type
    (if any, and a single one) and parameter types have a spelling is
    printed as the signature line [ret name(type1 type2 ...) {], with the
    parameter types only, separated by a space, for [void] when there is
    no result; then its body and a closing brace.  A function declared
    without body makes the transpiler panic after the signature line. *)
Theorem handleFuncDecl_prints fd rt :
  returnType fd = Some rt ->
  ast.Recv fd = None ->
  Forall typedField (ast.FieldsList (ast.Params (ast.Type_ fd))) ->
  (forall body chb,
      ast.Body fd = Some body ->
      prints (handleBlockStmt body) chb ->
      prints (handleFuncDecl fd)
        ([TextChunk
            (rt +++ " " +++ ast.Name (ast.FuncName fd) +++ "("
             +++ Join (fieldTypes
                         (ast.FieldsList (ast.Params (ast.Type_ fd)))) " "
             +++ ") {" +++ nl)]
         ++ chb ++ [TextChunk ("}" +++ nl)]))
  /\ (ast.Body fd = None ->
      forall o, plain o -> handleFuncDecl fd o = Panic ast.NilDereference).
Proof.
  intros Hrt Hr F. split.
  - intros body chb Hb Hp o P.
    rewrite (handleFuncDecl_signature fd rt o Hrt Hr F P), Hb.
    assert (Hk : prints (check handleBlockStmt body ;;
                         Writef body ("}" +++ nl) ;; ret None)
                   (chb ++ [TextChunk ("}" +++ nl)]))
      by (apply prints_check; [exact Hp | apply prints_Writef, prints_ret]).
    match goal with
    | |- context [emit o ?l] =>
        destruct (Hk _ (plain_emit o l P)) as (o' & E & Em);
        exists o'; split; [exact E|];
        exact (emits_trans _ _ _ _ _ (emits_emit o l) Em)
    end.
  - intros Hb o P.
    now rewrite (handleFuncDecl_signature fd rt o Hrt Hr F P), Hb.
Qed.

Lemma handleFuncDecl_prints_witness :
  (exists o',
      handleFuncDecl (setupFunc (Some setupBody)) bufferSink = Ret None o'
      /\ emits bufferSink
           ([TextChunk ("void setup() {" +++ nl)]
            ++ [TextChunk "  "; TextChunk "pinMode(ledPin, OUTPUT)";
                TextChunk (";" +++ nl)]
            ++ [TextChunk ("}" +++ nl)]) o')
  /\ handleFuncDecl (setupFunc None) bufferSink = Panic ast.NilDereference.
Proof.
  split.
  - refine (proj1 (handleFuncDecl_prints (setupFunc (Some setupBody)) "void"
                     _ _ _)
              setupBody
              [TextChunk "  "; TextChunk "pinMode(ledPin, OUTPUT)";
               TextChunk (";" +++ nl)] _ _ bufferSink _);
      try reflexivity.
    + constructor.
    + apply (prints_Block_cons 40 _ []
               [TextChunk "  "; TextChunk "pinMode(ledPin, OUTPUT)";
                TextChunk (";" +++ nl)] []).
      * apply (prints_ExprStmt _ [TextChunk "pinMode(ledPin, OUTPUT)"]).
        reflexivity.
      * apply prints_Block_nil.
    + repeat split.
  - refine (proj2 (handleFuncDecl_prints (setupFunc None) "void" _ _ _)
              _ bufferSink _); try reflexivity.
    + constructor.
    + repeat split.
Defined.

(** ** Declared constants and variables *)

Lemma emit_app o a b : emit (emit o a) b = emit o (a ++ b).
Proof. unfold emit. cbn. now rewrite app_assoc. Qed.

Lemma writeDecls_plain vs typ lit names :
  forall o,
    plain o ->
    writeDecls vs typ lit names o = Ret tt (emit o (declLines typ lit names)).
Proof.
  induction names as [|name r IH]; intros o P; cbn [writeDecls declLines map].
  - now rewrite emit_nil.
  - rewrite Writef_plain_bind by assumption.
    rewrite IH by now apply plain_emit. now rewrite emit_app.
Qed.

(** X14: on a plain sink, a value spec for which [guessType] finds a kind
    and a literal and whose kind has a C type is accepted: [handleValueSpec]
    returns no error and prints one declaration line per name, all with
    the type token of the kind, [const]-qualified when the first name is
    bound to a constant. *)
Theorem handleValueSpec_declares vs name names ob kind lit :
  ast.Names vs = name :: names ->
  ast.Obj name = Some ob ->
  guessType vs = inr (kind, lit, None) ->
  kind = token.INT \/ kind = token.STRING ->
  prints (handleValueSpec vs)
    (declLines (tokenStr kind (ast.ObjKind_eqb (ast.Kind ob) ast.Con)) lit
       (name :: names)).
Proof.
  intros Hn Ho Hg Hk o P. unfold handleValueSpec, isValueConst.
  rewrite Hn, Hg, Ho. cbn [List.length Nat.eqb]. cbv zeta.
  assert ((String.length
             (tokenStr kind (ast.ObjKind_eqb (ast.Kind ob) ast.Con)) =? 0)%nat
          = false) as ->
    by (destruct Hk as [->| ->];
        destruct (ast.ObjKind_eqb (ast.Kind ob) ast.Con); reflexivity).
  rewrite (bind_Ret _ _ _ _ _ (writeDecls_plain vs _ lit (name :: names) o P)).
  eexists. split; [reflexivity | apply emits_emit].
Qed.

Lemma handleValueSpec_declares_witness :
  exists o',
    handleValueSpec buttonPin bufferSink = Ret None o'
    /\ emits bufferSink [TextChunk ("const int buttonPin = 2;" +++ nl)] o'.
Proof.
  refine (handleValueSpec_declares buttonPin
            {| ast.NamePos := 20; ast.Name := "buttonPin";
               ast.Obj := Some {| ast.Kind := ast.Con |} |} []
            {| ast.Kind := ast.Con |} token.INT "2" _ _ _ _ bufferSink _);
    try reflexivity.
  - now left.
  - repeat split.
Defined.
